(** * AnamorphicEVotingSystem: anamorphic ElGamal and the blinded-vote tally

    A shallow embedding of the Go package [ElGamal] (files [elgamal.go] and
    [voting.go]) together with the parts of [math/big], [crypto/rand],
    [encoding/binary] and [crypto/aes] the package calls.

    - a [*big.Int] is a [Z]; a [nil] pointer produced by the library is
      [None];
    - a run-time panic is the [Panic] outcome of the [result] monad;
    - [crypto/rand] is an entropy tape threaded through the [rand] monad;
    - the reverse table [map[string]*big.Int] is a [gmap string Z] keyed by
      the decimal rendering of the group element;
    - a byte is an integer of [[0, 256)], a [[]byte] a list of them;
    - an [int] or [int64] argument is an integer: the code adds or subtracts
      1 from such a value only where it cannot leave the 64-bit range, so
      no wrap-around is written out;
    - a slice made with [make] and filled by index is a list updated with
      [<[i := x]>], inside bounds the code itself guarantees. *)

From Stdlib Require Import ZArith Zcong Lia.
From stdpp Require Import base decidable option list gmap strings pretty.

Local Open Scope Z_scope.

(** ** Outcomes of Go code that may panic *)

Inductive result (A : Type) : Type :=
| Ok (a : A)
| Panic.

Arguments Ok {A} a.
Arguments Panic {A}.

#[export] Instance result_ret : MRet result := fun A a => Ok a.

#[export] Instance result_bind : MBind result :=
  fun A B f r => match r with Ok a => f a | Panic => Panic end.

#[export] Instance result_fmap : FMap result :=
  fun A B f r => match r with Ok a => Ok (f a) | Panic => Panic end.

(** Dereferencing a pointer the library may have left [nil]. *)
Definition deref {A} (p : option A) : result A :=
  match p with Some a => Ok a | None => Panic end.

(** ** [crypto/rand]: an entropy tape

    Each read of the random source consumes one cell of the tape.  The tape
    is total, so the source itself never fails; a cell holds an arbitrary
    integer and the reader reduces it into the range it was asked for, so
    every value of that range is a possible outcome. *)

Definition tape : Type := nat -> Z.

Definition tape_tail (t : tape) : tape := fun i => t (S i).

Fixpoint tape_drop (n : nat) (t : tape) : tape :=
  match n with
  | O => t
  | S n' => tape_drop n' (tape_tail t)
  end.

Definition rand (A : Type) : Type := tape -> result (A * tape).

#[export] Instance rand_ret : MRet rand := fun A a t => Ok (a, t).

#[export] Instance rand_bind : MBind rand :=
  fun A B f m t => match m t with Ok (a, t') => f a t' | Panic => Panic end.

Definition lift {A} (r : result A) : rand A :=
  fun t => match r with Ok a => Ok (a, t) | Panic => Panic end.

(** The value a randomised computation returns, forgetting the rest of the
    tape. *)
Definition run {A} (m : rand A) (t : tape) : result A := fst <$> m t.

(** ** [math/big] *)

Module big.

(** [Mod] is the Euclidean modulus: the result lies in [[0, |y|)]; a zero
    modulus is a division-by-zero panic. *)
Definition Mod (x y : Z) : result Z :=
  if decide (y = 0) then Panic else Ok (x mod Z.abs y).

(** [Div] is the Euclidean quotient that goes with [Mod]. *)
Definition Div (x y : Z) : result Z :=
  if decide (y = 0) then Panic
  else Ok (if 0 <? y then x / y else - (x / - y)).

(** [ModInverse g n]: the inverse of [g] in the ring of integers modulo
    [|n|], in [[0, |n|)]; [nil] when [g] and [n] are not relatively prime.
    A negative [g] is first reduced with [Mod].  (For [|n| = 1] every
    product with the result is reduced modulo 1 by the callers.) *)
Definition ModInverse (g n : Z) : result (option Z) :=
  let n := Z.abs n in
  g ← (if g <? 0 then Mod g n else Ok g);
  mret (if Z.gcd g n =? 1 then Some (Z.invmod g n) else None).

(** [Exp x y m] is [x^y mod |m|]; with [m] zero (or a [nil] modulus) it is
    [x^y], and [1] when [y <= 0].  For [m <> 0] and [y < 0] it goes through
    the inverse of [x] and is [nil] when there is none. *)
Definition Exp (x y m : Z) : option Z :=
  if decide (m = 0) then Some (if y <=? 0 then 1 else x ^ y)
  else if y <? 0 then
    match ModInverse x m with
    | Ok (Some i) => Some (i ^ (- y) mod Z.abs m)
    | _ => None
    end
  else Some (x ^ y mod Z.abs m).

(** [Uint64]: the low 64 bits of the magnitude (what the implementation
    returns also for a value that does not fit in 64 bits). *)
Definition Uint64 (x : Z) : Z := Z.abs x mod 2 ^ 64.

(** [String]: the decimal rendering, with a leading minus sign for a
    negative value. *)
Definition String (x : Z) : string := pretty x.

(** [SetBytes]: a big-endian unsigned integer. *)
Definition SetBytes (buf : list Z) : Z :=
  fold_left (fun acc b => acc * 256 + b) buf 0.

End big.

(** [rand.Int(rand.Reader, max)]: a value of [[0, max)]; panics when
    [max <= 0]. *)
Definition rand_Int (max : Z) : rand Z :=
  fun t => if max <=? 0 then Panic else Ok (t 0%nat mod max, tape_tail t).

(** [rand.Read(buf)] for a buffer of [n] bytes. *)
Fixpoint rand_Read (n : nat) : rand (list Z) :=
  match n with
  | O => mret []
  | S n' => fun t =>
      match rand_Read n' (tape_tail t) with
      | Ok (bs, t') => Ok (t 0%nat mod 256 :: bs, t')
      | Panic => Panic
      end
  end.

(** [binary.LittleEndian.PutUint64]: the eight bytes of a 64-bit word, least
    significant first. *)
Definition PutUint64 (v : Z) : list Z :=
  map (fun i => Z.land (Z.shiftr v (8 * Z.of_nat i)) 255) (seq 0 8).

(** The sum of a list of integers. *)
Definition sumZ (l : list Z) : Z := foldr Z.add 0 l.

(** ** [crypto/aes]: the AES block cipher (FIPS-197)

    Bytes are integers of [[0, 256)], the state is the 16 bytes of the block
    in input order (column major), and the key is 16, 24 or 32 bytes. *)

Module aes.

(** Multiplication by [x] in GF(2^8) modulo [x^8 + x^4 + x^3 + x + 1]. *)
Definition xtime (b : Z) : Z :=
  Z.land (Z.lxor (Z.shiftl b 1) (if Z.testbit b 7 then 27 else 0)) 255.

Fixpoint gmul_bits (n : nat) (a b acc : Z) : Z :=
  match n with
  | O => acc
  | S n' =>
      gmul_bits n' (xtime a) (Z.shiftr b 1)
                (if Z.odd b then Z.lxor acc a else acc)
  end.

Definition gmul (a b : Z) : Z := gmul_bits 8 a b 0.

Fixpoint gpow (a : Z) (n : nat) : Z :=
  match n with
  | O => 1
  | S n' => gmul a (gpow a n')
  end.

Definition rotl8 (b k : Z) : Z :=
  Z.land (Z.lor (Z.shiftl b k) (Z.shiftr b (8 - k))) 255.

(** The S-box: the inverse in GF(2^8) (with 0 sent to 0) followed by the
    affine transformation. *)
Definition sbox_entry (b : Z) : Z :=
  let i := gpow b 254 in
  Z.lxor (Z.lxor (Z.lxor (Z.lxor (Z.lxor i (rotl8 i 1)) (rotl8 i 2))
                         (rotl8 i 3)) (rotl8 i 4)) 99.

Definition sbox : list Z :=
  Eval vm_compute in map (fun n => sbox_entry (Z.of_nat n)) (seq 0 256).

Definition SubByte (b : Z) : Z := nth (Z.to_nat b) sbox 0.

Definition SubBytes (st : list Z) : list Z := map SubByte st.

(** Row [r] of the state is rotated left by [r] columns. *)
Definition ShiftRows (st : list Z) : list Z :=
  map (fun n => let r := (n mod 4)%nat in
                let c := (n / 4)%nat in
                nth (r + 4 * ((c + r) mod 4))%nat st 0)
      (seq 0 16).

Definition MixColumn (col : list Z) : list Z :=
  match col with
  | [a0; a1; a2; a3] =>
      [ Z.lxor (Z.lxor (gmul 2 a0) (gmul 3 a1)) (Z.lxor a2 a3);
        Z.lxor (Z.lxor a0 (gmul 2 a1)) (Z.lxor (gmul 3 a2) a3);
        Z.lxor (Z.lxor a0 a1) (Z.lxor (gmul 2 a2) (gmul 3 a3));
        Z.lxor (Z.lxor (gmul 3 a0) a1) (Z.lxor a2 (gmul 2 a3)) ]
  | _ => col
  end.

Fixpoint chunks (n : nat) (k : nat) (l : list Z) : list (list Z) :=
  match n with
  | O => []
  | S n' => take k l :: chunks n' k (drop k l)
  end.

Definition MixColumns (st : list Z) : list Z :=
  concat (map MixColumn (chunks 4 4 st)).

Definition xor_bytes (a b : list Z) : list Z := zip_with Z.lxor a b.

Definition AddRoundKey (st rk : list Z) : list Z := xor_bytes st rk.

Definition RotWord (w : list Z) : list Z :=
  match w with
  | b :: rest => rest ++ [b]
  | [] => []
  end.

Definition SubWord (w : list Z) : list Z := map SubByte w.

Fixpoint Rcon (j : nat) : Z :=
  match j with
  | O => 0
  | S O => 1
  | S j' => xtime (Rcon j')
  end.

(** The key schedule: [ws] holds the words [w[0..i-1]]; word [i] is
    [w[i-Nk]] xor-ed with the (possibly transformed) word [w[i-1]]. *)
Fixpoint expand (n : nat) (Nk i : nat) (ws : list (list Z)) : list (list Z) :=
  match n with
  | O => ws
  | S n' =>
      let prev := nth (i - 1) ws [] in
      let temp :=
        if (i mod Nk =? 0)%nat then
          xor_bytes (SubWord (RotWord prev)) [Rcon (i / Nk); 0; 0; 0]
        else if ((6 <? Nk) && (i mod Nk =? 4))%nat then SubWord prev
        else prev in
      expand n' Nk (S i) (ws ++ [xor_bytes (nth (i - Nk) ws []) temp])
  end.

Definition KeyExpansion (key : list Z) : list (list Z) :=
  let Nk := (length key / 4)%nat in
  let Nr := (Nk + 6)%nat in
  let ws := expand (4 * (Nr + 1) - Nk) Nk Nk (chunks Nk 4 key) in
  chunks (Nr + 1) 16 (concat ws).

Definition round (st rk : list Z) : list Z :=
  AddRoundKey (MixColumns (ShiftRows (SubBytes st))) rk.

Definition final_round (st rk : list Z) : list Z :=
  AddRoundKey (ShiftRows (SubBytes st)) rk.

Definition Cipher (rks : list (list Z)) (block : list Z) : list Z :=
  match rks with
  | [] => block
  | rk0 :: rest =>
      let st := AddRoundKey block rk0 in
      let st := fold_left round (List.removelast rest) st in
      final_round st (List.last rest [])
  end.

(** [aes.NewCipher] rejects a key that is not 16, 24 or 32 bytes long;
    [Encrypt] enciphers one 16-byte block. *)
Definition NewCipher (key : list Z) : option (list (list Z)) :=
  let n := length key in
  if ((n =? 16) || (n =? 24) || (n =? 32))%nat then Some (KeyExpansion key)
  else None.

Definition Encrypt (rks : list (list Z)) (src : list Z) : list Z :=
  Cipher rks (take 16 src).

End aes.

(** ** Package [ElGamal], file [elgamal.go] *)

Module Params.
Record t : Type := mk { P : Z; Q : Z; G : Z }.
End Params.

Module AParams.
Record t : Type := mk { L : Z; S : Z; T : Z }.
End AParams.

(** Returns a uniformly random integer of [[0, max)]. *)
Definition mustRandInt (max : Z) : rand Z := rand_Int max.

(** [(a*b) mod m] *)
Definition modMul (a b m : Z) : result Z := big.Mod (a * b) m.

(** [a^e mod m] *)
Definition modExp (a e m : Z) : option Z := big.Exp a e m.

Definition modInverse (a p : Z) : result (option Z) := big.ModInverse a p.

(** Generates a secret key and [pk = g^sk mod p].  The exponent is at least
    1, so [Exp] never leaves [pk] nil. *)
Definition KGen (pp : Params.t) : rand (Z * Z) :=
  sk ← rand_Int pp.(Params.Q);
  let sk := if decide (sk = 0) then 1 else sk in
  pk ← lift (deref (big.Exp pp.(Params.G) sk pp.(Params.P)));
  mret (sk, pk).

(** Encrypts [msg] under [pk]; the three values are listed in the order of
    the [return] statement, which is [c1, c0, r]. *)
Definition Enc (p q g pk msg : Z) : rand (Z * Z * Z) :=
  r ← rand_Int q;
  let r := if decide (r = 0) then 1 else r in
  pkR ← lift (deref (big.Exp pk r p));
  c0 ← lift (big.Mod (msg * pkR) p);
  c1 ← lift (deref (big.Exp g r p));
  mret (c1, c0, r).

(** Decrypts [(c0, c1)] with [sk].  The value [ModInverse] returns is
    dropped: when there is no inverse the receiver [inv] keeps [c1^sk mod p]. *)
Definition Dec (pp : Params.t) (sk c0 c1 : Z) : result Z :=
  inv ← deref (big.Exp c1 sk pp.(Params.P));
  mi ← big.ModInverse inv pp.(Params.P);
  let inv := match mi with Some i => i | None => inv end in
  big.Mod (c0 * inv) pp.(Params.P).

(** The AES based function [F]: the block is the two 64-bit little-endian
    words of [x] and [y]; the cipher output is read as a little-endian
    integer and reduced modulo [p]. *)
Definition F (pp : Params.t) (K : list Z) (x y : Z) : result Z :=
  let plaintext := PutUint64 (big.Uint64 x) ++ PutUint64 (big.Uint64 y) in
  block ← deref (aes.NewCipher K);
  let ciphertext := aes.Encrypt block plaintext in
  let rev := reverse ciphertext in
  let val := big.SetBytes rev in
  big.Mod val pp.(Params.P).

Definition d (t x : Z) : result Z := big.Mod x t.

Definition xorBytes (a b : list Z) : list Z :=
  let maxLen := Nat.max (length a) (length b) in
  let aPadded := replicate (maxLen - length a) 0 ++ a in
  let bPadded := replicate (maxLen - length b) 0 ++ b in
  zip_with Z.lxor aPadded bPadded.

(** The table loop of [AGen]: [T[g^i mod p] = i] for [i = 0 .. l-1], a later
    index overwriting an earlier one with the same key. *)
Fixpoint AGen_table (n : nat) (pp : Params.t) (i : Z) (T : gmap string Z)
  : result (gmap string Z) :=
  match n with
  | O => Ok T
  | S n' =>
      val ← deref (modExp pp.(Params.G) i pp.(Params.P));
      AGen_table n' pp (i + 1) (<[big.String val := i]> T)
  end.

Definition AGen (l : Z) (pp : Params.t) (pk : Z)
  : rand (list Z * gmap string Z * Z) :=
  K ← rand_Read 16;
  T ← lift (AGen_table (Z.to_nat l) pp 0 ∅);
  mret (K, T, pk).

(** One turn of the loop of [AEnc]: [Some] ciphertext when the draw is
    accepted ([break]), [None] when the loop goes round again. *)
Definition AEnc_try (app : AParams.t) (pp : Params.t) (K : list Z)
    (pk msg cm : Z) : rand (option (Z * Z * Z)) :=
  x ← mustRandInt app.(AParams.S);
  y ← mustRandInt app.(AParams.T);
  tVal ← lift (F pp K x y);
  r ← lift (big.Mod (cm + tVal) pp.(Params.Q));
  gr ← lift (deref (modExp pp.(Params.G) r pp.(Params.P)));
  yCheck ← lift (big.Mod gr app.(AParams.T));
  if decide (yCheck = y) then
    pkr ← lift (deref (modExp pk r pp.(Params.P)));
    c0 ← lift (modMul msg pkr pp.(Params.P));
    c1 ← lift (deref (modExp pp.(Params.G) r pp.(Params.P)));
    mret (Some (c0, c1, r))
  else mret None.

(** [AEnc] is an unbounded [for] loop; [AEnc attempts] is what it has done
    after at most [attempts] turns: [Some] result once a draw was accepted,
    [None] while it is still sampling. *)
Fixpoint AEnc (attempts : nat) (app : AParams.t) (pp : Params.t) (K : list Z)
    (pk msg cm : Z) : rand (option (Z * Z * Z)) :=
  match attempts with
  | O => mret None
  | S n =>
      o ← AEnc_try app pp K pk msg cm;
      match o with
      | Some ct => mret (Some ct)
      | None => AEnc n app pp K pk msg cm
      end
  end.

(** The candidate [sVal] that [ADec] looks up for one [x]; [None] when the
    inverse is nil and the turn is skipped. *)
Definition ADec_sVal (pp : Params.t) (K : list Z) (c1 y x : Z)
  : result (option Z) :=
  tVal ← F pp K x y;
  gt ← deref (modExp pp.(Params.G) tVal pp.(Params.P));
  invG ← modInverse gt pp.(Params.P);
  match invG with
  | None => Ok None
  | Some invG => sVal ← modMul c1 invG pp.(Params.P); Ok (Some sVal)
  end.

Fixpoint ADec_loop (n : nat) (pp : Params.t) (K : list Z)
    (T : gmap string Z) (c1 y x : Z) : result (option Z) :=
  match n with
  | O => Ok None
  | S n' =>
      s ← ADec_sVal pp K c1 y x;
      match s ≫= (fun sVal => T !! big.String sVal) with
      | Some val => Ok (Some val)
      | None => ADec_loop n' pp K T c1 y (x + 1)
      end
  end.

Definition ADec (app : AParams.t) (pp : Params.t) (K : list Z)
    (T : gmap string Z) (c0 c1 : Z) : result (option Z) :=
  y ← big.Mod c1 app.(AParams.T);
  ADec_loop (Z.to_nat app.(AParams.S)) pp K T c1 y 0.

(** ** Package [ElGamal], file [voting.go] *)

(** [candidate] is a 1-based index; returns [base^(candidate-1)]. *)
Definition EncodeVote (candidate base : Z) : Z :=
  if candidate <=? 0 then 0
  else default 0 (big.Exp base (candidate - 1) 0).

Fixpoint DecodeCounts_loop (n : nat) (i : nat) (b : Z) (counts : list Z)
    (tmp : Z) : result (list Z) :=
  match n with
  | O => Ok counts
  | S n' =>
      c ← big.Mod tmp b;
      tmp ← big.Div tmp b;
      DecodeCounts_loop n' (S i) b (<[i := c]> counts) tmp
  end.

(** [make] panics on a negative length; the slots of the fresh slice are
    all overwritten by the loop. *)
Definition DecodeCounts (total numCandidates base : Z) : result (list Z) :=
  if numCandidates <? 0 then Panic
  else
    let counts := replicate (Z.to_nat numCandidates) 0 in
    DecodeCounts_loop (Z.to_nat numCandidates) 0 base counts total.

Fixpoint SplitSecret_loop (n : nat) (i : nat) (parts : list Z)
    (remaining : Z) : rand (list Z * Z) :=
  match n with
  | O => mret (parts, remaining)
  | S n' =>
      let bound := remaining + 1 in
      x ← rand_Int bound;
      SplitSecret_loop n' (S i) (<[i := x]> parts) (remaining - x)
  end.

(** Splits [r] into [n] additive shares.  [make] panics on a negative [n],
    and with [n = 0] the last assignment indexes [parts[-1]]. *)
Definition SplitSecret (r n : Z) : rand (list Z) :=
  if n <? 0 then lift Panic
  else
    let parts := replicate (Z.to_nat n) 0 in
    '(parts, remaining) ← SplitSecret_loop (Z.to_nat (n - 1)) 0 parts r;
    if n - 1 <? 0 then lift Panic
    else mret (<[Z.to_nat (n - 1) := remaining]> parts).

(** The blinded vote [(v_i + r_i - sumShares) mod L]. *)
Definition ComputeBlindVotes (vi r base : Z) (shares : list Z)
    (pp : Params.t) (app : AParams.t) : result Z :=
  let v_i := EncodeVote vi base in
  let sumShares := fold_left Z.add shares 0 in
  big.Mod (v_i + r - sumShares) app.(AParams.L).

(** The signed reading of a decrypted value inside [TallyVotes]. *)
Definition TallyVotes_signed (S half b : Z) : Z :=
  if half <? b then b - S else b.

Fixpoint TallyVotes_loop (app : AParams.t) (pp : Params.t) (K : list Z)
    (Tmap : gmap string Z) (S half : Z) (votes : list (Z * Z)) (total : Z)
  : result Z :=
  match votes with
  | [] => Ok total
  | vote :: votes' =>
      bi ← ADec app pp K Tmap vote.1 vote.2;
      match bi with
      | None => TallyVotes_loop app pp K Tmap S half votes' total
      | Some bi =>
          let b := TallyVotes_signed S half bi in
          TallyVotes_loop app pp K Tmap S half votes' (total + b)
      end
  end.

(** Decrypts all votes and sums them into a total. *)
Definition TallyVotes (app : AParams.t) (pp : Params.t) (K : list Z)
    (Tmap : gmap string Z) (votes : list (Z * Z)) : result Z :=
  let S := app.(AParams.L) in
  half ← big.Div S 2;
  total ← TallyVotes_loop app pp K Tmap S half votes 0;
  big.Mod total S.

Fixpoint DetermineWinner_loop (counts : list Z) (i maxIdx : nat) (n : nat)
  : result nat :=
  match n with
  | O => Ok maxIdx
  | S n' =>
      ci ← deref (counts !! i);
      cm ← deref (counts !! maxIdx);
      DetermineWinner_loop counts (S i) (if cm <? ci then i else maxIdx) n'
  end.

(** Decodes the total and returns the 1-based candidate with most votes,
    the first one on a tie. *)
Definition DetermineWinner (total base numCandidates : Z) : result Z :=
  counts ← DecodeCounts total numCandidates base;
  maxIdx ← DetermineWinner_loop counts 1 0 (Z.to_nat (numCandidates - 1));
  Ok (Z.of_nat maxIdx + 1).

(** Unfolding the plumbing of the [rand] monad. *)
Ltac unfold_rand :=
  unfold mbind, rand_bind, mustRandInt, rand_Int, lift, mret, rand_ret.

(** ** Notions used to state the properties *)

(** The sum of [f 0 .. f (n-1)]. *)
Definition sum_upto (n : nat) (f : nat -> Z) : Z := sumZ (map f (seq 0 n)).

(** What voter [j] holds after every one of the [n] voters has split a
    secret and handed out its shares: the [j]-th share of every split, in
    the order of the senders. *)
Definition shares_received (n : nat) (split : nat -> list Z) (j : nat)
  : list Z :=
  map (fun i => nth j (split i) 0) (seq 0 n).

(** The blinded vote of voter [j], as [ComputeBlindVotes] forms it. *)
Definition blinded (n : nat) (cand r : nat -> Z) (split : nat -> list Z)
    (base : Z) (app : AParams.t) (j : nat) : Z :=
  (EncodeVote (cand j) base + r j - sumZ (shares_received n split j))
    mod Z.abs app.(AParams.L).

(** The number of votes a candidate received. *)
Definition vote_count (votes : list Z) (c : Z) : Z :=
  Z.of_nat (count_occ Z.eq_dec votes c).

(** The integer whose digits in base [b], least significant first, are [ds]. *)
Definition from_digits (b : Z) (ds : list Z) : Z :=
  foldr (fun d acc => d + b * acc) 0 ds.

(** The counts of candidates [1 .. m]. *)
Definition counts_list (votes : list Z) (m : nat) : list Z :=
  map (fun k => vote_count votes (Z.of_nat k + 1)) (seq 0 m).

(** ** Worked examples *)

(** A small group for worked examples: [p = 23], [q = 22], [g = 5] (a
    generator modulo 23), hidden-message domain [L = S = T = 4], the all-zero
    AES key, and the reverse table [AGen] builds for them. *)
Definition demo_pp : Params.t := Params.mk 23 22 5.
Definition demo_app : AParams.t := AParams.mk 4 4 4.
Definition demo_K : list Z := replicate 16 0.
Definition demo_Tmap : gmap string Z :=
  <["10" := 3]> (<["2" := 2]> (<["5" := 1]> (<["1" := 0]> ∅))).

(** Three voters choosing candidates 1, 1 and 3 with base 6 and
    [L = 100000]. *)
Definition demo_cand (j : nat) : Z := nth j [1; 1; 3] 0.
Definition demo_r (j : nat) : Z := nth j [5000; 6000; 7000] 0.
Definition demo_tape (j : nat) : tape :=
  fun k => Z.of_nat (1234 * (j + 1) + 777 * k).
Definition demo_split (i : nat) : list Z :=
  match run (SplitSecret (demo_r i) 3) (demo_tape i) with
  | Ok parts => parts
  | Panic => []
  end.

(** A random source whose third pair of draws is [(0, 1)], all other draws
    being 0, and the one that only ever draws 0. *)
Definition demo_tape_third : tape := fun i => if (i =? 5)%nat then 1 else 0.
Definition demo_tape_zero : tape := fun _ => 0.

(** A random source whose first pair of draws is [(2, 1)], and the one that
    only ever draws 1. *)
Definition demo_tape_two_one : tape := fun i => if (i =? 0)%nat then 2 else 1.
Definition demo_tape_one : tape := fun _ => 1.

(** A larger group, [p = 1019] (prime), [q = 1018], [g = 2], with the
    hidden-message domain [L = S = T = 3] and its reverse table. *)
Definition demo_pp_1019 : Params.t := Params.mk 1019 1018 2.
Definition demo_app_3 : AParams.t := AParams.mk 3 3 3.
Definition demo_Tmap_1019 : gmap string Z :=
  <["4" := 2]> (<["2" := 1]> (<["1" := 0]> ∅)).

(** The key [00 01 02 ...] and the block [00 11 22 .. ff] of the examples of
    FIPS-197, appendix C. *)
Definition fips_key (n : nat) : list Z := map Z.of_nat (seq 0 n).
Definition fips_block : list Z := map (fun n => Z.of_nat (17 * n)) (seq 0 16).

Definition encrypt_block (key block : list Z) : option (list Z) :=
  rks ← aes.NewCipher key; Some (aes.Encrypt rks block).


(** A group in which powers of [g] collide inside the table range: [p = 7],
    [g = 2] of order 3, domain size 4; and the table [AGen] builds for it. *)
Definition demo_pp_7 : Params.t := Params.mk 7 6 2.
Definition demo_Tmap_7 : gmap string Z :=
  <["4" := 2]> (<["2" := 1]> (<["1" := 3]> ∅)).

(** An election of two voters who both choose candidate 1 of 2, in base 3
    over the domain [L = 4]: their randomness, their random sources, the
    shares [SplitSecret] deals from them, and two ciphertexts from which
    [ADec] recovers the blinded votes. *)
Definition demo_election_r (j : nat) : Z := nth j [3; 2] 0.
Definition demo_election_tape (j : nat) : tape :=
  fun k => Z.of_nat (j + 1 + k).
Definition demo_election_split (i : nat) : list Z :=
  match run (SplitSecret (demo_election_r i) 2) (demo_election_tape i) with
  | Ok parts => parts
  | Panic => []
  end.
Definition demo_election_votes : list (Z * Z) := [(7, 13); (9, 14)].

(** ** Program [main], file [main.go] *)

(** A voter with its keys, its random value and the shares it received.  The
    three [*big.Int] fields are nil until they are assigned. *)
Module User.

Record t := mk {
  userID : string;
  ask : option Z;
  apk : option Z;
  K : list Z;
  Tmap : gmap string Z;
  r : option Z;
  Shares : list Z
}.

Definition set_r (u : t) (x : option Z) : t :=
  mk u.(userID) u.(ask) u.(apk) u.(K) u.(Tmap) x u.(Shares).

Definition set_Shares (u : t) (s : list Z) : t :=
  mk u.(userID) u.(ask) u.(apk) u.(K) u.(Tmap) u.(r) s.

End User.

(** [fmt.Sprintf("user%d", i+1)] *)
Definition user_id (i : nat) : string := "user" +:+ pretty (Z.of_nat i + 1).

(** The package variable [users] is threaded through as a state.  Every
    entry points to a [User] of its own, so the map is one of values. *)
Fixpoint GenerateUsers_loop (n i : nat) (pp : Params.t) (L : Z)
    (users : gmap string User.t) : rand (gmap string User.t) :=
  match n with
  | O => mret users
  | S n' =>
      let id := user_id i in
      '(sk, pk) ← KGen pp;
      '(K, Tmap, _) ← AGen L pp pk;
      let user := User.mk id (Some sk) (Some pk) K Tmap None [] in
      GenerateUsers_loop n' (S i) pp L (<[id := user]> users)
  end.

Definition GenerateUsers (pp : Params.t) (L number : Z)
    (users : gmap string User.t) : rand (gmap string User.t) :=
  GenerateUsers_loop (Z.to_nat number) 0 pp L users.

(** The inner loop of [DistributeShares]: receiver number [i] of the list
    appends [shares[i]] to its shares.  A missing user is a nil pointer and
    a missing share an index out of range. *)
Fixpoint DistributeShares_receivers (receivers : list string) (i : nat)
    (shares : list Z) (users : gmap string User.t)
  : result (gmap string User.t) :=
  match receivers with
  | [] => Ok users
  | receiverID :: rest =>
      receiver ← deref (users !! receiverID);
      share ← deref (shares !! i);
      DistributeShares_receivers rest (S i) shares
        (<[receiverID :=
             User.set_Shares receiver (receiver.(User.Shares) ++ [share])]>
           users)
  end.

(** The outer loop, over the senders that are left; [userList] is the whole
    list and [n] the number of users. *)
Fixpoint DistributeShares_senders (senders userList : list string) (n : Z)
    (low high : Z) (users : gmap string User.t)
  : rand (gmap string User.t) :=
  match senders with
  | [] => mret users
  | senderID :: rest =>
      r_i ← rand_Int (high - low);
      let r_i := r_i + low in
      sender ← lift (deref (users !! senderID));
      let users := <[senderID := User.set_r sender (Some r_i)]> users in
      shares ← SplitSecret r_i n;
      users ← lift (DistributeShares_receivers userList 0 shares users);
      DistributeShares_senders rest userList n low high users
  end.

(** Go leaves the order of [range users] open: [userList] is the order the
    keys came in, each key of the map once. *)
Definition DistributeShares (userList : list string) (low high : Z)
    (users : gmap string User.t) : rand (gmap string User.t) :=
  let n := Z.of_nat (size users) in
  DistributeShares_senders userList userList n low high users.

(** [userList] is an order in which [range users] may yield the keys. *)
Definition ranges_over (userList : list string)
    (users : gmap string User.t) : Prop :=
  NoDup userList /\ forall id, id ∈ userList <-> is_Some (users !! id).

(** Two users on a random source that counts upwards. *)
Definition demo_users : gmap string User.t :=
  match run (GenerateUsers demo_pp 4 2 ∅) (fun i => Z.of_nat (i + 1)) with
  | Ok users => users
  | Panic => ∅
  end.

(** The sum of [f] over the users of the map. *)
Definition users_sum (f : User.t -> Z) (users : gmap string User.t) : Z :=
  sumZ (map (fun p => f p.2) (map_to_list users)).

(** The blinded vote of the user [id] of the map, for the candidate it
    chose (0 when the user or its value is missing). *)
Definition user_blinded (users : gmap string User.t) (cand : string -> Z)
    (base : Z) (pp : Params.t) (app : AParams.t) (id : string) : Z :=
  match users !! id with
  | Some u =>
      match u.(User.r) with
      | Some r =>
          match ComputeBlindVotes (cand id) r base u.(User.Shares) pp app with
          | Ok b => b
          | Panic => 0
          end
      | None => 0
      end
  | None => 0
  end.

(** A choice of candidates: [user1] votes for 2, everyone else for 1. *)
Definition demo_choice (id : string) : Z :=
  if decide (id = "user1") then 2 else 1.
(** * Properties *)

(** ** Known values *)

(** The cipher agrees with the example vectors of FIPS-197 (appendix C) for
    the three key sizes. *)
Example aes128_fips197 :
  encrypt_block (fips_key 16) fips_block
  = Some [105; 196; 224; 216; 106; 123; 4; 48;
          216; 205; 183; 128; 112; 180; 197; 90].
Proof. vm_compute. reflexivity. Qed.

Example aes192_fips197 :
  encrypt_block (fips_key 24) fips_block
  = Some [221; 169; 124; 164; 134; 76; 223; 224;
          110; 175; 112; 160; 236; 13; 113; 145].
Proof. vm_compute. reflexivity. Qed.

Example aes256_fips197 :
  encrypt_block (fips_key 32) fips_block
  = Some [142; 162; 183; 202; 81; 103; 69; 191;
          234; 252; 73; 144; 75; 73; 96; 137].
Proof. vm_compute. reflexivity. Qed.

Example aes_rejects_short_key : aes.NewCipher [1; 2; 3] = None.
Proof. reflexivity. Qed.

(** With base 6, three voters choosing candidates 1, 1 and 3 give the counts
    [2, 0, 1, 0, ...] and candidate 1 wins. *)
Example tally_1_1_3 :
  DecodeCounts (EncodeVote 1 6 + EncodeVote 1 6 + EncodeVote 3 6) 8 6
  = Ok [2; 0; 1; 0; 0; 0; 0; 0]
  /\ DetermineWinner (EncodeVote 1 6 + EncodeVote 1 6 + EncodeVote 3 6) 6 8
     = Ok 1.
Proof. split; reflexivity. Qed.

(** The table [AGen] builds for the small group, and a split of 10 into
    three shares. *)
Example AGen_demo :
  run (AGen 4 demo_pp 10) demo_tape_zero = Ok (demo_K, demo_Tmap, 10).
Proof. vm_compute. reflexivity. Qed.

Example SplitSecret_demo :
  run (SplitSecret 10 3) (fun i => Z.of_nat (7 + 5 * i)) = Ok [7; 0; 3].
Proof. vm_compute. reflexivity. Qed.

(** ** The library layer *)

Section BigFacts.

Lemma Mod_Ok (x y v : Z) :
  big.Mod x y = Ok v <-> y <> 0 /\ v = x mod Z.abs y.
Proof.
  unfold big.Mod. destruct (decide (y = 0)); split.
  - discriminate.
  - intros [? _]. contradiction.
  - intros [= <-]. auto.
  - intros [_ ->]. reflexivity.
Qed.

Lemma Mod_nonzero (x y : Z) : y <> 0 -> big.Mod x y = Ok (x mod Z.abs y).
Proof. intros. apply Mod_Ok. auto. Qed.

Lemma Mod_pos (x y : Z) : 0 < y -> big.Mod x y = Ok (x mod y).
Proof.
  intros. rewrite Mod_nonzero by lia. now rewrite Z.abs_eq by lia.
Qed.

Lemma Mod_range (x y v : Z) : big.Mod x y = Ok v -> 0 <= v < Z.abs y.
Proof.
  intros [Hy ->]%Mod_Ok. apply Z.mod_pos_bound. lia.
Qed.

Lemma Mod_Panic (x y : Z) : big.Mod x y = Panic <-> y = 0.
Proof.
  unfold big.Mod. destruct (decide (y = 0)); split; auto; try discriminate.
  intros; contradiction.
Qed.

Lemma Div_pos (x y : Z) : 0 < y -> big.Div x y = Ok (x / y).
Proof.
  intros. unfold big.Div. destruct (decide (y = 0)); [lia|].
  destruct (Z.ltb_spec 0 y); [reflexivity | lia].
Qed.

(** With a non-negative exponent [Exp] is never nil. *)
Lemma Exp_nonneg (x y m : Z) :
  0 <= y ->
  big.Exp x y m
  = Some (if decide (m = 0) then x ^ y else x ^ y mod Z.abs m).
Proof.
  intros Hy. unfold big.Exp. destruct (decide (m = 0)).
  - destruct (Z.leb_spec y 0); [|reflexivity].
    replace y with 0 by lia. reflexivity.
  - destruct (Z.ltb_spec y 0); [lia | reflexivity].
Qed.

Lemma Exp_pos_mod (x y m : Z) :
  0 <= y -> 0 < m -> big.Exp x y m = Some (x ^ y mod m).
Proof.
  intros. rewrite Exp_nonneg by assumption.
  destruct (decide (m = 0)); [lia|]. now rewrite Z.abs_eq by lia.
Qed.

Lemma fold_left_add (l : list Z) (a : Z) : fold_left Z.add l a = a + sumZ l.
Proof.
  revert a. induction l as [|x l IH]; intros a; simpl; [lia|].
  rewrite IH. lia.
Qed.

Lemma sumZ_app (l1 l2 : list Z) : sumZ (l1 ++ l2) = sumZ l1 + sumZ l2.
Proof. induction l1 as [|x l1 IH]; simpl; lia. Qed.

End BigFacts.

(** ** Blinded votes stay in range *)

(** C9. For every candidate, personal randomness, base, list of shares and
    domain size [L > 0], [ComputeBlindVotes] returns a value of [[0, L)],
    also when [EncodeVote candidate base + r - sum shares] is negative: the
    final reduction is the Euclidean modulus. *)
Theorem ComputeBlindVotes_range (vi r base : Z) (shares : list Z)
    (pp : Params.t) (app : AParams.t) :
  0 < app.(AParams.L) ->
  exists bi, ComputeBlindVotes vi r base shares pp app = Ok bi
             /\ 0 <= bi < app.(AParams.L)
             /\ bi = (EncodeVote vi base + r - sumZ shares) mod app.(AParams.L).
Proof.
  intros HL. unfold ComputeBlindVotes.
  rewrite Mod_pos by assumption. rewrite fold_left_add, Z.add_0_l.
  eexists; split; [reflexivity|]. split; [|reflexivity].
  apply Z.mod_pos_bound; assumption.
Qed.

Lemma ComputeBlindVotes_range_witness :
  ComputeBlindVotes 1 2 6 [5; 9] (Params.mk 23 22 5) (AParams.mk 10 10 10) = Ok 9
  /\ EncodeVote 1 6 + 2 - sumZ [5; 9] = -11.
Proof.
  destruct (ComputeBlindVotes_range 1 2 6 [5; 9] (Params.mk 23 22 5)
              (AParams.mk 10 10 10)) as (bi & Hbi & _ & Hval);
    [simpl; lia|].
  split; [|reflexivity]. rewrite Hbi, Hval. reflexivity.
Defined.

(** ** Additive secret sharing *)

Section SplitSecretFacts.

Lemma SplitSecret_loop_step (n i : nat) (parts : list Z) (remaining : Z)
    (t : tape) :
  SplitSecret_loop (S n) i parts remaining t =
  if remaining + 1 <=? 0 then Panic
  else
    let x := t 0%nat mod (remaining + 1) in
    SplitSecret_loop n (S i) (<[i := x]> parts) (remaining - x) (tape_tail t).
Proof.
  simpl. unfold mbind, rand_bind, rand_Int.
  destruct (remaining + 1 <=? 0); reflexivity.
Qed.

(** Whatever the loop returns, it has filled the next [n] slots with
    values that, with the new remainder, add up to the old remainder. *)
Lemma SplitSecret_loop_inv (n : nat) :
  forall (done rest : list Z) (remaining : Z) (t : tape) parts' rem' t',
    (n <= length rest)%nat ->
    SplitSecret_loop n (length done) (done ++ rest) remaining t
      = Ok (parts', rem', t') ->
    exists xs, parts' = done ++ xs ++ drop n rest
               /\ length xs = n
               /\ sumZ xs + rem' = remaining.
Proof.
  induction n as [|n IH]; intros done rest remaining t parts' rem' t' Hn Hrun.
  - simpl in Hrun. injection Hrun as <- <- <-.
    exists []. rewrite drop_0. simpl. auto with lia.
  - rewrite SplitSecret_loop_step in Hrun.
    destruct (remaining + 1 <=? 0); [discriminate|]. cbv zeta in Hrun.
    destruct rest as [|y rest]; [simpl in Hn; lia|].
    set (x := t 0%nat mod (remaining + 1)) in *.
    replace (<[length done := x]> (done ++ y :: rest))
      with ((done ++ [x]) ++ rest) in Hrun.
    2:{ rewrite <- (Nat.add_0_r (length done)) at 1.
        rewrite insert_app_r. simpl. now rewrite <- app_assoc. }
    replace (S (length done)) with (length (done ++ [x])) in Hrun
      by (rewrite length_app; simpl; lia).
    apply IH in Hrun as (xs & -> & Hlen & Hsum); [|simpl in Hn; lia].
    exists (x :: xs). simpl. rewrite <- app_assoc. simpl.
    repeat split; [lia | lia].
Qed.

(** With a non-negative remainder every bound is positive, so the loop
    never panics, and every share it draws is non-negative. *)
Lemma SplitSecret_loop_total (n : nat) :
  forall (i : nat) (parts : list Z) (remaining : Z) (t : tape),
    0 <= remaining ->
    exists parts' rem' t',
      SplitSecret_loop n i parts remaining t = Ok (parts', rem', t')
      /\ 0 <= rem'.
Proof.
  induction n as [|n IH]; intros i parts remaining t Hrem.
  - simpl. eauto.
  - rewrite SplitSecret_loop_step.
    destruct (Z.leb_spec (remaining + 1) 0); [lia|]. cbv zeta.
    apply IH.
    pose proof (Z.mod_pos_bound (t 0%nat) (remaining + 1)). lia.
Qed.

Lemma SplitSecret_Ok (r n : Z) (t : tape) (parts : list Z) :
  run (SplitSecret r n) t = Ok parts ->
  1 <= n /\ Z.of_nat (length parts) = n /\ sumZ parts = r.
Proof.
  unfold run, SplitSecret. destruct (Z.ltb_spec n 0); [discriminate|].
  unfold mbind, rand_bind.
  destruct (SplitSecret_loop _ _ _ _ _) as [[[ps rem] t1]|] eqn:Hloop;
    [|discriminate].
  destruct (Z.ltb_spec (n - 1) 0); [discriminate|].
  simpl. intros [= <-].
  apply (SplitSecret_loop_inv _ []) in Hloop as (xs & -> & Hlen & Hsum).
  2:{ rewrite length_replicate. lia. }
  simpl. rewrite drop_replicate.
  replace (Z.to_nat n - Z.to_nat (n - 1))%nat with 1%nat by lia.
  simpl.
  replace (<[Z.to_nat (n - 1) := rem]> (xs ++ [0])) with (xs ++ [rem]).
  2:{ rewrite <- Hlen, <- (Nat.add_0_r (length xs)).
      now rewrite insert_app_r. }
  rewrite length_app, sumZ_app. simpl. lia.
Qed.

End SplitSecretFacts.

(** C4. For every [n >= 1] and every secret [r >= 0], whatever the random
    source yields, [SplitSecret r n] returns [n] shares whose sum over the
    integers is exactly [r]. *)
Theorem SplitSecret_sum (r n : Z) (t : tape) :
  1 <= n -> 0 <= r ->
  exists parts, run (SplitSecret r n) t = Ok parts
                /\ Z.of_nat (length parts) = n
                /\ sumZ parts = r.
Proof.
  intros Hn Hr.
  destruct (SplitSecret_loop_total (Z.to_nat (n - 1)) 0
              (replicate (Z.to_nat n) 0) r t Hr) as (ps & rem & t1 & Hloop & _).
  assert (Hrun : run (SplitSecret r n) t
                 = Ok (<[Z.to_nat (n - 1) := rem]> ps)).
  { unfold run, SplitSecret. destruct (Z.ltb_spec n 0); [lia|].
    unfold mbind, rand_bind. rewrite Hloop.
    destruct (Z.ltb_spec (n - 1) 0); [lia|]. reflexivity. }
  eexists. split; [exact Hrun|].
  apply SplitSecret_Ok in Hrun. tauto.
Qed.

Lemma SplitSecret_sum_witness :
  exists parts, run (SplitSecret 10 3) (fun i => Z.of_nat (7 + 5 * i)) = Ok parts
                /\ Z.of_nat (length parts) = 3
                /\ sumZ parts = 10.
Proof.
  apply (SplitSecret_sum 10 3 (fun i => Z.of_nat (7 + 5 * i))); lia.
Defined.

(** ** Cancellation of the blinding terms *)

Section Cancellation.

Lemma sumZ_pointwise_add (f g : nat -> Z) (l : list nat) :
  sumZ (map (fun j => f j + g j) l) = sumZ (map f l) + sumZ (map g l).
Proof. induction l as [|x l IH]; simpl; lia. Qed.

Lemma sumZ_ext (f g : nat -> Z) (l : list nat) :
  (forall j, In j l -> f j = g j) -> sumZ (map f l) = sumZ (map g l).
Proof.
  induction l as [|x l IH]; intros Hfg; simpl; [reflexivity|].
  rewrite Hfg by (left; reflexivity).
  rewrite IH; [reflexivity|]. intros j Hj. apply Hfg. now right.
Qed.

Lemma sumZ_exchange (a : nat -> nat -> Z) (l1 l2 : list nat) :
  sumZ (map (fun j => sumZ (map (fun i => a i j) l1)) l2)
  = sumZ (map (fun i => sumZ (map (fun j => a i j) l2)) l1).
Proof.
  induction l2 as [|y l2 IH]; simpl.
  - induction l1 as [|x l1 IH1]; simpl; lia.
  - rewrite IH. now rewrite <- sumZ_pointwise_add.
Qed.

Lemma sumZ_mod_pointwise (f : nat -> Z) (m : Z) (l : list nat) :
  sumZ (map (fun j => f j mod m) l) mod m = sumZ (map f l) mod m.
Proof.
  induction l as [|x l IH]; simpl; [reflexivity|].
  rewrite Zplus_mod, IH, Zmod_mod, <- Zplus_mod. reflexivity.
Qed.

Lemma map_nth_seq_all (l : list Z) :
  map (fun j => nth j l 0) (seq 0 (length l)) = l.
Proof.
  induction l as [|x l IH]; simpl; [reflexivity|].
  f_equal. rewrite <- seq_shift, map_map. exact IH.
Qed.

Variables (n : nat) (cand r : nat -> Z) (tp : nat -> tape).
Variables (split : nat -> list Z) (base : Z).
Variables (pp : Params.t) (app : AParams.t).

Hypothesis L_nonzero : app.(AParams.L) <> 0.
Hypothesis splits :
  forall i, (i < n)%nat ->
            run (SplitSecret (r i) (Z.of_nat n)) (tp i) = Ok (split i).

(** Every share handed out is received once, so the received shares add up
    to the secrets that were split. *)
Lemma shares_received_total :
  sum_upto n (fun j => sumZ (shares_received n split j)) = sum_upto n r.
Proof.
  unfold sum_upto, shares_received.
  rewrite (sumZ_exchange (fun i j => nth j (split i) 0)).
  apply sumZ_ext. intros i Hi. apply in_seq in Hi.
  destruct (SplitSecret_Ok _ _ _ _ (splits i ltac:(lia))) as (_ & Hlen & Hsum).
  rewrite <- Hsum.
  replace n with (length (split i)) by lia.
  now rewrite map_nth_seq_all.
Qed.

Lemma ComputeBlindVotes_blinded (j : nat) :
  ComputeBlindVotes (cand j) (r j) base (shares_received n split j) pp app
  = Ok (blinded n cand r split base app j).
Proof.
  unfold ComputeBlindVotes, blinded.
  rewrite Mod_nonzero by assumption.
  now rewrite fold_left_add, Z.add_0_l.
Qed.

Lemma blinded_sum :
  sum_upto n (blinded n cand r split base app) mod app.(AParams.L)
  = sum_upto n (fun j => EncodeVote (cand j) base) mod app.(AParams.L).
Proof.
  apply Z.eq_mod_abs. unfold sum_upto, blinded.
  rewrite sumZ_mod_pointwise. f_equal.
  pose proof shares_received_total as Htot. unfold sum_upto in Htot.
  rewrite (sumZ_ext _ (fun j => (EncodeVote (cand j) base + r j)
                                + - sumZ (shares_received n split j)))
    by (intros; lia).
  rewrite sumZ_pointwise_add, sumZ_pointwise_add.
  assert (sumZ (map (fun j => - sumZ (shares_received n split j)) (seq 0 n))
          = - sumZ (map (fun j => sumZ (shares_received n split j)) (seq 0 n)))
    as ->.
  { generalize (seq 0 n). intros l. induction l; simpl; lia. }
  rewrite Htot. lia.
Qed.

End Cancellation.

(** C2. For [n] voters, voter [i] having split a personal randomness [r i]
    with [SplitSecret] into [n] shares and every voter holding one share of
    every split, each [ComputeBlindVotes] returns a value, and the sum of the
    blinded votes is congruent modulo [L] to the sum of the encoded votes:
    the random terms cancel. *)
Theorem blinded_votes_cancel (n : nat) (cand r : nat -> Z) (tp : nat -> tape)
    (split : nat -> list Z) (base : Z) (pp : Params.t) (app : AParams.t) :
  (1 <= n)%nat ->
  app.(AParams.L) <> 0 ->
  (forall i, (i < n)%nat ->
             run (SplitSecret (r i) (Z.of_nat n)) (tp i) = Ok (split i)) ->
  exists b : nat -> Z,
    (forall j, (j < n)%nat ->
       ComputeBlindVotes (cand j) (r j) base (shares_received n split j) pp app
       = Ok (b j))
    /\ sum_upto n b mod app.(AParams.L)
       = sum_upto n (fun j => EncodeVote (cand j) base) mod app.(AParams.L).
Proof.
  intros _ HL Hsplit.
  exists (blinded n cand r split base app). split.
  - intros j _. now apply ComputeBlindVotes_blinded.
  - now apply (blinded_sum n cand r tp).
Qed.

Lemma blinded_votes_cancel_witness :
  exists b : nat -> Z,
    (forall j, (j < 3)%nat ->
       ComputeBlindVotes (demo_cand j) (demo_r j) 6
         (shares_received 3 demo_split j)
         (Params.mk 23 22 5) (AParams.mk 100000 100000 100000)
       = Ok (b j))
    /\ sum_upto 3 b mod 100000
       = sum_upto 3 (fun j => EncodeVote (demo_cand j) 6) mod 100000.
Proof.
  apply (blinded_votes_cancel 3 demo_cand demo_r demo_tape demo_split 6
           (Params.mk 23 22 5) (AParams.mk 100000 100000 100000)).
  - lia.
  - simpl. lia.
  - intros i Hi.
    destruct i as [|[|[|i]]]; [vm_compute; reflexivity .. | lia].
Defined.

(** ** Positional encoding of the votes *)

Section Digits.

Variable b : Z.
Hypothesis b_pos : 0 < b.

Lemma EncodeVote_pow (c : Z) : 1 <= c -> EncodeVote c b = b ^ (c - 1).
Proof.
  intros Hc. unfold EncodeVote.
  destruct (Z.leb_spec c 0); [lia|].
  rewrite Exp_nonneg by lia. reflexivity.
Qed.

Lemma DecodeCounts_loop_step (n i : nat) (counts : list Z) (tmp : Z) :
  DecodeCounts_loop (S n) i b counts tmp
  = DecodeCounts_loop n (S i) b (<[i := tmp mod b]> counts) (tmp / b).
Proof.
  simpl. rewrite Mod_pos, Div_pos by assumption. reflexivity.
Qed.

(** Decoding reads back the digits of a number written in base [b]. *)
Lemma DecodeCounts_loop_digits (ds : list Z) :
  forall done rest : list Z,
    Forall (fun d => 0 <= d < b) ds ->
    (length ds <= length rest)%nat ->
    DecodeCounts_loop (length ds) (length done) b (done ++ rest)
                      (from_digits b ds)
    = Ok (done ++ ds ++ drop (length ds) rest).
Proof.
  induction ds as [|d ds IH]; intros done rest Hds Hlen.
  - simpl. now rewrite drop_0.
  - apply Forall_cons in Hds as [Hd Hds].
    destruct rest as [|y rest]; [simpl in Hlen; lia|].
    change (length (d :: ds)) with (S (length ds)).
    rewrite DecodeCounts_loop_step.
    change (from_digits b (d :: ds)) with (d + b * from_digits b ds).
    replace ((d + b * from_digits b ds) mod b) with d.
    2:{ rewrite (Z.mul_comm b), Z.mod_add by lia.
        symmetry. now apply Z.mod_small. }
    replace ((d + b * from_digits b ds) / b) with (from_digits b ds).
    2:{ rewrite (Z.mul_comm b), Z.div_add by lia.
        rewrite Z.div_small by assumption. lia. }
    replace (<[length done := d]> (done ++ y :: rest))
      with ((done ++ [d]) ++ rest).
    2:{ rewrite <- (Nat.add_0_r (length done)) at 1.
        rewrite insert_app_r. simpl. now rewrite <- app_assoc. }
    replace (S (length done)) with (length (done ++ [d]))
      by (rewrite length_app; simpl; lia).
    rewrite IH by (simpl in Hlen; auto with lia).
    simpl. now rewrite <- app_assoc.
Qed.

Lemma from_digits_zeros (m s : nat) :
  from_digits b (map (fun _ : nat => 0) (seq s m)) = 0.
Proof.
  revert s. induction m as [|m IH]; intros s; simpl; [reflexivity|].
  rewrite IH. lia.
Qed.

(** One more vote for the candidate of digit [k] adds [b^k]. *)
Lemma from_digits_incr (ds : list Z) :
  forall (k : nat) (d : Z),
    ds !! k = Some d ->
    from_digits b (<[k := d + 1]> ds) = from_digits b ds + b ^ Z.of_nat k.
Proof.
  induction ds as [|e ds IH]; intros k d Hk; [discriminate|].
  destruct k as [|k].
  - injection Hk as ->. simpl. lia.
  - change (from_digits b (<[S k := d + 1]> (e :: ds)))
      with (e + b * from_digits b (<[k := d + 1]> ds)).
    change (from_digits b (e :: ds)) with (e + b * from_digits b ds).
    rewrite (IH k d Hk), Nat2Z.inj_succ, Z.pow_succ_r by lia. lia.
Qed.

Lemma counts_list_cons (votes : list Z) (m : nat) (c : Z) :
  1 <= c <= Z.of_nat m ->
  counts_list (c :: votes) m
  = <[Z.to_nat (c - 1) := vote_count votes c + 1]> (counts_list votes m).
Proof.
  intros Hc. apply list_eq. intros i. unfold counts_list.
  destruct (decide (i = Z.to_nat (c - 1))) as [->|Hne].
  - rewrite list_lookup_insert_eq by (rewrite length_map, length_seq; lia).
    rewrite list_lookup_fmap, lookup_seq_lt by lia. simpl.
    unfold vote_count.
    rewrite count_occ_cons_eq by lia.
    replace (Z.of_nat (Z.to_nat (c - 1)) + 1) with c by lia.
    f_equal. lia.
  - rewrite list_lookup_insert_ne by auto.
    rewrite !list_lookup_fmap.
    destruct (seq 0 m !! i) as [k|] eqn:Hk; [|reflexivity]. simpl.
    apply lookup_seq in Hk as [-> _]. unfold vote_count.
    rewrite count_occ_cons_neq by lia. reflexivity.
Qed.

Lemma EncodeVote_sum_digits (m : nat) (votes : list Z) :
  Forall (fun c => 1 <= c <= Z.of_nat m) votes ->
  sumZ (map (fun c => EncodeVote c b) votes)
  = from_digits b (counts_list votes m).
Proof.
  induction votes as [|c votes IH]; intros Hv.
  - simpl. unfold counts_list, vote_count. simpl.
    now rewrite from_digits_zeros.
  - apply Forall_cons in Hv as [Hc Hv]. simpl.
    rewrite (IH Hv), counts_list_cons by assumption.
    rewrite (from_digits_incr _ _ (vote_count votes c)).
    + rewrite EncodeVote_pow by lia.
      replace (Z.of_nat (Z.to_nat (c - 1))) with (c - 1) by lia. lia.
    + unfold counts_list.
      rewrite list_lookup_fmap, lookup_seq_lt by lia. simpl.
      do 2 f_equal. lia.
Qed.

(** Summing encoded votes and decoding [m] digits gives the counts, as
    long as no count reaches the base. *)
Lemma DecodeCounts_EncodeVote (m : nat) (votes : list Z) :
  Forall (fun c => 1 <= c <= Z.of_nat m) votes ->
  (forall c, 1 <= c <= Z.of_nat m -> vote_count votes c < b) ->
  DecodeCounts (sumZ (map (fun c => EncodeVote c b) votes)) (Z.of_nat m) b
  = Ok (counts_list votes m).
Proof.
  intros Hv Hlt. unfold DecodeCounts.
  destruct (Z.ltb_spec (Z.of_nat m) 0); [lia|].
  rewrite Nat2Z.id, (EncodeVote_sum_digits m) by assumption.
  pose proof (DecodeCounts_loop_digits (counts_list votes m) []
                (replicate m 0)) as Hloop.
  assert (Hlen : length (counts_list votes m) = m)
    by (unfold counts_list; now rewrite length_map, length_seq).
  rewrite Hlen in Hloop. simpl in Hloop. rewrite Hloop.
  - rewrite drop_replicate, Nat.sub_diag. simpl. now rewrite app_nil_r.
  - unfold counts_list. apply Forall_forall. intros d Hd.
    apply list_elem_of_In, in_map_iff in Hd as (k & <- & Hk%in_seq).
    split; [unfold vote_count; lia | apply Hlt; lia].
  - now rewrite length_replicate.
Qed.

End Digits.

(** C6. For every list of chosen candidates among 8 candidates, with base 6:
    if no candidate's count reaches the base, [DecodeCounts] applied to the
    sum of the encoded votes, with [numCandidates = 8] and [base = 6],
    returns the eight per-candidate counts, least-significant digit first. *)
Theorem DecodeCounts_EncodeVote_8_6 (votes : list Z) :
  Forall (fun c => 1 <= c <= 8) votes ->
  (forall c, 1 <= c <= 8 -> vote_count votes c < 6) ->
  DecodeCounts (sumZ (map (fun c => EncodeVote c 6) votes)) 8 6
  = Ok (map (vote_count votes) [1; 2; 3; 4; 5; 6; 7; 8]).
Proof.
  intros Hv Hlt.
  apply (DecodeCounts_EncodeVote 6 ltac:(lia) 8 votes); assumption.
Qed.

Lemma DecodeCounts_EncodeVote_8_6_witness :
  DecodeCounts (sumZ (map (fun c => EncodeVote c 6) [1; 3; 1; 8; 3; 1])) 8 6
  = Ok [3; 0; 2; 0; 0; 0; 0; 1].
Proof.
  apply (DecodeCounts_EncodeVote_8_6 [1; 3; 1; 8; 3; 1]).
  - repeat constructor; lia.
  - intros c Hc.
    assert (c = 1 \/ c = 2 \/ c = 3 \/ c = 4 \/ c = 5 \/ c = 6 \/ c = 7 \/ c = 8)
      as Hcases by lia.
    repeat (destruct Hcases as [-> | Hcases]; [vm_compute; reflexivity|]).
    subst c. vm_compute. reflexivity.
Defined.

(** ** The signed reading in the tally *)

Section Tally.

Variables (app : AParams.t) (pp : Params.t) (K : list Z).
Variable Tmap : gmap string Z.


(** The loop adds the signed reading of every value [ADec] recovers and
    skips the ciphertexts for which it returns nil. *)
Lemma TallyVotes_loop_sum (S half : Z) (votes : list (Z * Z)) :
  forall (recovered : list (option Z)) (total : Z),
    Forall2 (fun vote o => ADec app pp K Tmap vote.1 vote.2 = Ok o)
            votes recovered ->
    TallyVotes_loop app pp K Tmap S half votes total
    = Ok (total + sumZ (map (TallyVotes_signed S half) (omap id recovered))).
Proof.
  induction votes as [|vote votes IH]; intros recovered total Hrec.
  - apply Forall2_nil_inv_l in Hrec as ->. simpl. f_equal. lia.
  - apply Forall2_cons_inv_l in Hrec as (o & rec' & Ho & Hrec & ->).
    simpl. rewrite Ho. simpl.
    destruct o as [bi|]; simpl; rewrite (IH _ _ Hrec); f_equal;
      unfold omap; lia.
Qed.

End Tally.





(** ** The function [F] *)

Section FFacts.

Variables (pp : Params.t) (K : list Z).

Lemma Uint64_low (x : Z) : 0 <= x -> big.Uint64 (x mod 2 ^ 64) = big.Uint64 x.
Proof.
  intros Hx. unfold big.Uint64.
  pose proof (Z.mod_pos_bound x (2 ^ 64) ltac:(lia)).
  rewrite !Z.abs_eq by lia. apply Zmod_mod.
Qed.

(** [F] panics for a key [aes.NewCipher] rejects and for a zero modulus, and
    for nothing else: no [x] or [y] is refused. *)
Lemma F_Panic (x y : Z) :
  F pp K x y = Panic <-> aes.NewCipher K = None \/ pp.(Params.P) = 0.
Proof.
  unfold F. destruct (aes.NewCipher K) as [block|]; simpl.
  - rewrite Mod_Panic. split; [auto|]. intros [?|?]; [discriminate|assumption].
  - split; auto.
Qed.

Lemma F_range (x y v : Z) : F pp K x y = Ok v -> 0 <= v < Z.abs pp.(Params.P).
Proof.
  unfold F. destruct (aes.NewCipher K) as [block|]; simpl; [|discriminate].
  apply Mod_range.
Qed.

End FFacts.

(** C10. [F] depends only on the low 64 bits of its integer inputs: for every
    key and all non-negative [x] and [y] it returns on [(x, y)] what it
    returns on [(x mod 2^64, y mod 2^64)]; and it never rejects an input for
    its size, its only panics being a bad key length and a zero modulus. *)
Theorem F_low64 (pp : Params.t) (K : list Z) (x y : Z) :
  0 <= x -> 0 <= y ->
  F pp K x y = F pp K (x mod 2 ^ 64) (y mod 2 ^ 64)
  /\ (F pp K x y = Panic <-> aes.NewCipher K = None \/ pp.(Params.P) = 0).
Proof.
  intros Hx Hy. split; [|apply F_Panic].
  unfold F. now rewrite !Uint64_low.
Qed.

Lemma F_low64_witness :
  F demo_pp demo_K (2 ^ 64 + 1) (3 * 2 ^ 64 + 2) = F demo_pp demo_K 1 2
  /\ F demo_pp demo_K (2 ^ 64 + 1) (3 * 2 ^ 64 + 2) = Ok 20.
Proof.
  destruct (F_low64 demo_pp demo_K (2 ^ 64 + 1) (3 * 2 ^ 64 + 2)) as [H _];
    [lia | lia |].
  rewrite H. split; vm_compute; reflexivity.
Defined.

(** ** Plain ElGamal *)

Section ElGamalFacts.

Variable pp : Params.t.

Hypothesis P_big : 1 < pp.(Params.P).
Hypothesis Q_pos : 0 < pp.(Params.Q).
Hypothesis G_unit : Z.gcd pp.(Params.G) pp.(Params.P) = 1.

Lemma pow_coprime (e : Z) :
  0 <= e -> Z.coprime (pp.(Params.G) ^ e mod pp.(Params.P)) pp.(Params.P).
Proof.
  intros He. apply Z.coprime_mod_l_iff. now apply Z.coprime_pow_l.
Qed.

(** Multiplying by a power of [g] and by the inverse of that power gives the
    value back. *)
Lemma mul_pow_invmod (x e : Z) :
  0 <= e ->
  (x * Z.invmod (pp.(Params.G) ^ e mod pp.(Params.P)) pp.(Params.P)
     * (pp.(Params.G) ^ e mod pp.(Params.P))) mod pp.(Params.P)
  = x mod pp.(Params.P).
Proof.
  intros He.
  rewrite <- Z.mul_assoc, <- Zmult_mod_idemp_r.
  rewrite Z.invmod_coprime by (auto using pow_coprime with lia).
  now rewrite Z.mul_1_r.
Qed.

Lemma ModInverse_pow (e : Z) :
  0 <= e ->
  big.ModInverse (pp.(Params.G) ^ e mod pp.(Params.P)) pp.(Params.P)
  = Ok (Some (Z.invmod (pp.(Params.G) ^ e mod pp.(Params.P)) pp.(Params.P))).
Proof.
  intros He. unfold big.ModInverse.
  pose proof (Z.mod_pos_bound (pp.(Params.G) ^ e) pp.(Params.P) ltac:(lia)).
  destruct (Z.ltb_spec (pp.(Params.G) ^ e mod pp.(Params.P)) 0); [lia|].
  simpl. rewrite Z.abs_eq by lia.
  pose proof (pow_coprime e He) as Hc. unfold Z.coprime in Hc.
  rewrite Hc. reflexivity.
Qed.

(** What [KGen] returns: an exponent of [[1, q)] (or 1) and its power. *)
Lemma KGen_returns (t : tape) :
  exists sk, run (KGen pp) t = Ok (sk, pp.(Params.G) ^ sk mod pp.(Params.P))
             /\ 1 <= sk.
Proof.
  unfold run, KGen. unfold_rand.
  destruct (Z.leb_spec pp.(Params.Q) 0); [lia|].
  pose proof (Z.mod_pos_bound (t 0%nat) pp.(Params.Q) Q_pos).
  set (sk := if decide (t 0%nat mod pp.(Params.Q) = 0) then 1
             else t 0%nat mod pp.(Params.Q)).
  assert (1 <= sk) by (subst sk; destruct (decide _); lia).
  exists sk. rewrite Exp_pos_mod by lia. simpl. auto.
Qed.

(** What [Enc] returns, in the order of its [return] statement: first
    [g^r mod p], then [msg * pk^r mod p], then [r]. *)
Lemma Enc_returns (pk msg : Z) (t : tape) :
  exists r,
    run (Enc pp.(Params.P) pp.(Params.Q) pp.(Params.G) pk msg) t
    = Ok (pp.(Params.G) ^ r mod pp.(Params.P),
          (msg * (pk ^ r mod pp.(Params.P))) mod pp.(Params.P), r)
    /\ 1 <= r.
Proof.
  unfold run, Enc. unfold_rand.
  destruct (Z.leb_spec pp.(Params.Q) 0); [lia|].
  pose proof (Z.mod_pos_bound (t 0%nat) pp.(Params.Q) Q_pos).
  set (r := if decide (t 0%nat mod pp.(Params.Q) = 0) then 1
            else t 0%nat mod pp.(Params.Q)).
  assert (1 <= r) by (subst r; destruct (decide _); lia).
  exists r. rewrite !Exp_pos_mod by lia. simpl.
  rewrite Mod_pos by lia. simpl. auto.
Qed.

(** Decryption undoes encryption once the two ciphertext components are
    passed in the order [Dec] expects: [c0 = msg * pk^r], [c1 = g^r]. *)
Lemma Dec_Enc_components (sk r msg : Z) :
  0 <= sk -> 0 <= r -> 0 <= msg < pp.(Params.P) ->
  Dec pp sk
      ((msg * ((pp.(Params.G) ^ sk mod pp.(Params.P)) ^ r mod pp.(Params.P)))
         mod pp.(Params.P))
      (pp.(Params.G) ^ r mod pp.(Params.P))
  = Ok msg.
Proof.
  intros Hsk Hr Hm.
  assert (Hinv : (Z.invmod (pp.(Params.G) ^ (r * sk) mod pp.(Params.P))
                            pp.(Params.P)
                   * (pp.(Params.G) ^ (r * sk) mod pp.(Params.P)))
                  mod pp.(Params.P) = 1)
    by (apply Z.invmod_coprime; [lia | apply pow_coprime; lia]).
  assert (HA : (pp.(Params.G) ^ sk mod pp.(Params.P)) ^ r mod pp.(Params.P)
               = pp.(Params.G) ^ (r * sk) mod pp.(Params.P)).
  { rewrite Z.mod_pow_l, <- Z.pow_mul_r by lia. now rewrite (Z.mul_comm sk r). }
  assert (HB : (pp.(Params.G) ^ r mod pp.(Params.P)) ^ sk mod pp.(Params.P)
               = pp.(Params.G) ^ (r * sk) mod pp.(Params.P)).
  { now rewrite Z.mod_pow_l, <- Z.pow_mul_r by lia. }
  unfold Dec. rewrite Exp_pos_mod, HB, HA by lia. simpl.
  rewrite ModInverse_pow by lia. simpl.
  set (A := pp.(Params.G) ^ (r * sk) mod pp.(Params.P)) in *.
  set (I := Z.invmod A pp.(Params.P)) in *.
  rewrite Mod_pos by lia. f_equal.
  rewrite Zmult_mod_idemp_l.
  replace (msg * A * I) with (msg * (I * A)) by ring.
  rewrite <- Zmult_mod_idemp_r, Hinv, Z.mul_1_r.
  now apply Z.mod_small.
Qed.

(** With a key pair of [KGen] and a message of [[0, p)], the two first
    values [Enc] returns decrypt to the message once they are exchanged. *)
Lemma Dec_Enc_exchanged (msg : Z) (tk te : tape) :
  0 <= msg < pp.(Params.P) ->
  exists sk pk first second r,
    run (KGen pp) tk = Ok (sk, pk)
    /\ run (Enc pp.(Params.P) pp.(Params.Q) pp.(Params.G) pk msg) te
       = Ok (first, second, r)
    /\ Dec pp sk second first = Ok msg.
Proof.
  intros Hm.
  destruct (KGen_returns tk) as (sk & Hkey & Hsk).
  destruct (Enc_returns (pp.(Params.G) ^ sk mod pp.(Params.P)) msg te)
    as (r & Henc & Hr).
  do 5 eexists. split; [exact Hkey|]. split; [exact Henc|].
  apply Dec_Enc_components; lia.
Qed.

End ElGamalFacts.

(** When [c1^sk mod p] has no inverse, [Dec] returns a value like any other:
    [ModInverse] answers nil, its answer is dropped, and the product is
    formed with [c1^sk mod p] itself. *)
Lemma Dec_without_inverse (pp : Params.t) (sk c0 c1 : Z) :
  pp.(Params.P) <> 0 -> 0 <= sk ->
  Z.gcd (c1 ^ sk mod Z.abs pp.(Params.P)) (Z.abs pp.(Params.P)) <> 1 ->
  Dec pp sk c0 c1
  = Ok ((c0 * (c1 ^ sk mod Z.abs pp.(Params.P))) mod Z.abs pp.(Params.P)).
Proof.
  intros HP Hsk Hgcd. unfold Dec.
  rewrite Exp_nonneg by assumption.
  destruct (decide (pp.(Params.P) = 0)); [contradiction|]. simpl.
  unfold big.ModInverse.
  pose proof (Z.mod_pos_bound (c1 ^ sk) (Z.abs pp.(Params.P)) ltac:(lia)).
  destruct (Z.ltb_spec (c1 ^ sk mod Z.abs pp.(Params.P)) 0); [lia|].
  simpl.
  destruct (Z.eqb_spec (Z.gcd (c1 ^ sk mod Z.abs pp.(Params.P))
                              (Z.abs pp.(Params.P))) 1); [contradiction|].
  now rewrite Mod_nonzero by assumption.
Qed.

(** C8 (the code at the failing input). With the prime modulus 23 and secret
    key 3, the ciphertext [(7, 0)] has [c1^sk mod p = 0], for which
    [ModInverse] returns nil; [Dec] returns the value 0, the same outcome as
    for the well-formed ciphertext [(0, 5)] of the message 0. *)
Theorem Dec_without_inverse_example :
  big.Exp 0 3 23 = Some 0
  /\ big.ModInverse 0 23 = Ok None
  /\ Dec demo_pp 3 7 0 = Ok 0
  /\ Dec demo_pp 3 0 5 = Ok 0.
Proof. repeat split; vm_compute; reflexivity. Qed.

(** C3 (the code at the failing input). With [p = 23], [q = 22], [g = 5],
    the key pair [(3, 10)] of [KGen] and the message 2, [Enc] drawing
    [r = 1] returns [g^r mod p = 5] first and [m * pk^r mod p = 20] second;
    [Dec] applied to these two values in the order returned gives 16, and
    gives the message back only when they are swapped. *)
Theorem Enc_return_order_example :
  run (KGen demo_pp) (fun _ => 3) = Ok (3, 10)
  /\ run (Enc 23 22 5 10 2) (fun _ => 1) = Ok (5, 20, 1)
  /\ 5 ^ 1 mod 23 = 5
  /\ (2 * 10 ^ 1) mod 23 = 20
  /\ Dec demo_pp 3 5 20 = Ok 16
  /\ Dec demo_pp 3 20 5 = Ok 2.
Proof. repeat split; vm_compute; reflexivity. Qed.

(** ** The rejection-sampling loop of [AEnc] *)

Section AEncFacts.

Variables (app : AParams.t) (pp : Params.t) (K : list Z).
Variables (pk msg cm : Z).

Lemma tape_drop_add (a b : nat) (t : tape) :
  tape_drop (a + b) t = tape_drop b (tape_drop a t).
Proof. revert t. induction a as [|a IH]; intros t; simpl; auto. Qed.

(** One turn of the loop reads two cells of the tape. *)
Lemma AEnc_try_tape (t t' : tape) (o : option (Z * Z * Z)) :
  AEnc_try app pp K pk msg cm t = Ok (o, t') -> t' = tape_drop 2 t.
Proof.
  unfold AEnc_try. unfold_rand.
  destruct (app.(AParams.S) <=? 0); [discriminate|].
  unfold tape_tail at 1.
  destruct (app.(AParams.T) <=? 0); [discriminate|].
  destruct (F _ _ _ _); [|discriminate].
  destruct (big.Mod _ pp.(Params.Q)); [|discriminate].
  destruct (deref _); [|discriminate].
  destruct (big.Mod _ app.(AParams.T)); [|discriminate].
  destruct (decide _).
  - destruct (deref _); [|discriminate].
    destruct (modMul _ _ _); [|discriminate].
    now intros [= _ <-].
  - now intros [= _ <-].
Qed.

Lemma AEnc_try_run (t : tape) (o : option (Z * Z * Z)) :
  run (AEnc_try app pp K pk msg cm) t = Ok o ->
  AEnc_try app pp K pk msg cm t = Ok (o, tape_drop 2 t).
Proof.
  unfold run. destruct (AEnc_try app pp K pk msg cm t) as [[o' t']|] eqn:Htry;
    [|discriminate].
  simpl. intros [= ->]. now rewrite (AEnc_try_tape _ _ _ Htry).
Qed.

(** After [n] rejected draws the loop is where it started, [2 * n] cells
    further down the tape. *)
Lemma AEnc_rejected_prefix (n : nat) :
  forall t : tape,
    (forall i, (i < n)%nat ->
       run (AEnc_try app pp K pk msg cm) (tape_drop (2 * i) t) = Ok None) ->
    forall m, AEnc (n + m) app pp K pk msg cm t
              = AEnc m app pp K pk msg cm (tape_drop (2 * n) t).
Proof.
  induction n as [|n IH]; intros t Hrej m; [reflexivity|].
  change (S n + m)%nat with (S (n + m)).
  cbn [AEnc]. unfold mbind at 1, rand_bind at 1.
  rewrite (AEnc_try_run t None (Hrej 0%nat ltac:(lia))).
  rewrite IH.
  - replace (2 * S n)%nat with (2 + 2 * n)%nat by lia.
    now rewrite tape_drop_add.
  - intros i Hi. rewrite <- tape_drop_add.
    replace (2 + 2 * i)%nat with (2 * S i)%nat by lia.
    apply Hrej. lia.
Qed.

(** Once a draw is accepted, further turns change nothing. *)
Lemma AEnc_accepted_first (t : tape) (ct : Z * Z * Z) (m : nat) :
  run (AEnc_try app pp K pk msg cm) t = Ok (Some ct) ->
  run (AEnc (S m) app pp K pk msg cm) t = Ok (Some ct).
Proof.
  intros Hacc. unfold run. cbn [AEnc]. unfold mbind at 1, rand_bind at 1.
  now rewrite (AEnc_try_run t _ Hacc).
Qed.

(** A result of [AEnc] is the result of one accepted turn. *)
Lemma AEnc_returns_accepted (n : nat) :
  forall (t t' : tape) (ct : Z * Z * Z),
    AEnc n app pp K pk msg cm t = Ok (Some ct, t') ->
    exists t0, AEnc_try app pp K pk msg cm t0 = Ok (Some ct, t').
Proof.
  induction n as [|n IH]; intros t t' ct Hrun; [discriminate|].
  cbn [AEnc] in Hrun. unfold mbind at 1, rand_bind at 1 in Hrun.
  destruct (AEnc_try app pp K pk msg cm t) as [[[ct1|] t1]|] eqn:Htry;
    [| eauto | discriminate].
  injection Hrun as <- <-. eauto.
Qed.

(** What an accepted turn has computed. *)
Lemma AEnc_try_accepted (t t' : tape) (c0 c1 r : Z) :
  AEnc_try app pp K pk msg cm t = Ok (Some (c0, c1, r), t') ->
  exists x y tVal,
    0 <= x < app.(AParams.S) /\ 0 <= y < app.(AParams.T)
    /\ F pp K x y = Ok tVal
    /\ pp.(Params.Q) <> 0
    /\ r = (cm + tVal) mod Z.abs pp.(Params.Q)
    /\ c1 = pp.(Params.G) ^ r mod Z.abs pp.(Params.P)
    /\ c1 mod Z.abs app.(AParams.T) = y
    /\ c0 = (msg * (pk ^ r mod Z.abs pp.(Params.P))) mod Z.abs pp.(Params.P).
Proof.
  unfold AEnc_try. unfold_rand.
  destruct (Z.leb_spec app.(AParams.S) 0); [discriminate|].
  unfold tape_tail at 1.
  destruct (Z.leb_spec app.(AParams.T) 0); [discriminate|].
  set (x := t 0%nat mod app.(AParams.S)).
  set (y := t 1%nat mod app.(AParams.T)).
  destruct (F pp K x y) as [tVal|] eqn:HF; [|discriminate].
  destruct (big.Mod _ pp.(Params.Q)) as [r'|] eqn:Hr; [|discriminate].
  pose proof (Mod_range _ _ _ Hr) as Hr_range.
  apply Mod_Ok in Hr as [HQ Hr].
  pose proof (F_range _ _ _ _ _ HF) as Ht_range.
  assert (HP : pp.(Params.P) <> 0).
  { intros HP0. assert (F pp K x y = Panic) as HFp by (apply F_Panic; auto).
    congruence. }
  unfold modExp. rewrite !Exp_nonneg by lia.
  destruct (decide (pp.(Params.P) = 0)); [contradiction|]. simpl.
  destruct (big.Mod _ app.(AParams.T)) as [yCheck|] eqn:Hy; [|discriminate].
  apply Mod_Ok in Hy as [_ Hy].
  destruct (decide (yCheck = y)) as [Hacc|]; [|discriminate].
  unfold modMul. rewrite Mod_nonzero by assumption.
  intros [= <- <- <- _].
  exists x, y, tVal. subst r'.
  repeat split; try (apply Z.mod_pos_bound; lia); auto; congruence.
Qed.

End AEncFacts.

(** C5 (as the code has it). The loop of [AEnc] has no attempt bound and no
    exhaustion failure: whatever [n] is, after [n] rejected draws it has
    neither returned nor failed and goes on with the next draw, and it
    returns the ciphertext of draw [n] when that draw is accepted. *)
Theorem AEnc_no_attempt_bound (app : AParams.t) (pp : Params.t) (K : list Z)
    (pk msg cm : Z) (n : nat) (t : tape) :
  (forall i, (i < n)%nat ->
     run (AEnc_try app pp K pk msg cm) (tape_drop (2 * i) t) = Ok None) ->
  run (AEnc n app pp K pk msg cm) t = Ok None
  /\ (forall m, AEnc (n + m) app pp K pk msg cm t
                = AEnc m app pp K pk msg cm (tape_drop (2 * n) t))
  /\ (forall ct m,
        run (AEnc_try app pp K pk msg cm) (tape_drop (2 * n) t) = Ok (Some ct) ->
        run (AEnc (n + S m) app pp K pk msg cm) t = Ok (Some ct)).
Proof.
  intros Hrej.
  pose proof (AEnc_rejected_prefix app pp K pk msg cm n t Hrej) as Hgo.
  repeat split.
  - unfold run. rewrite <- (Nat.add_0_r n), Hgo. reflexivity.
  - exact Hgo.
  - intros ct m Hacc. unfold run. rewrite Hgo.
    now apply AEnc_accepted_first.
Qed.

Lemma AEnc_no_attempt_bound_witness :
  run (AEnc 2 demo_app demo_pp demo_K 10 7 0) demo_tape_third = Ok None
  /\ run (AEnc 3 demo_app demo_pp demo_K 10 7 0) demo_tape_third
     = Ok (Some (20, 9, 10)).
Proof.
  destruct (AEnc_no_attempt_bound demo_app demo_pp demo_K 10 7 0 2
              demo_tape_third) as (Hstill & _ & Hacc).
  - intros i Hi. destruct i as [|[|i]]; [vm_compute; reflexivity .. | lia].
  - split; [exact Hstill|].
    apply (Hacc (20, 9, 10) 0%nat). vm_compute. reflexivity.
Defined.

(** On the source that only draws 0 every turn is rejected. *)
Lemma AEnc_try_zero_rejected :
  AEnc_try demo_app demo_pp demo_K 10 7 0 demo_tape_zero
  = Ok (None, demo_tape_zero).
Proof. vm_compute. reflexivity. Qed.

(** C5, counterexample. With [p = 23], [q = 22], [g = 5], [S = T = 4], the
    all-zero key and hidden message 0, a random source that always draws 0
    gives [(x, y) = (0, 0)] at every turn: [F] is 10, [r = 10],
    [5^10 mod 23 = 9] and [9 mod 4 = 1] is not [y].  There is no number of
    attempts after which [AEnc] has returned or failed. *)
Lemma AEnc_attempt_guard_counterexample :
  ~ exists n, run (AEnc n demo_app demo_pp demo_K 10 7 0) demo_tape_zero
              <> Ok None.
Proof.
  intros [n Hn]. apply Hn. clear Hn.
  induction n as [|n IH]; [reflexivity|].
  unfold run in *. cbn [AEnc]. unfold mbind at 1, rand_bind at 1.
  rewrite AEnc_try_zero_rejected. exact IH.
Qed.

(** ** Anamorphic decryption *)

Section ADecFacts.

Variables (app : AParams.t) (pp : Params.t) (K : list Z).

Hypothesis P_big : 1 < pp.(Params.P).
Hypothesis Q_pos : 0 < pp.(Params.Q).
Hypothesis G_order : pp.(Params.G) ^ pp.(Params.Q) mod pp.(Params.P) = 1.

(** An element whose [q]-th power is 1 is a unit modulo [p]. *)
Lemma G_unit_of_order : Z.gcd pp.(Params.G) pp.(Params.P) = 1.
Proof.
  apply Z.coprime_Bezout.
  exists (pp.(Params.G) ^ (pp.(Params.Q) - 1)),
         (- (pp.(Params.G) ^ pp.(Params.Q) / pp.(Params.P))).
  pose proof (Z.div_mod (pp.(Params.G) ^ pp.(Params.Q)) pp.(Params.P)
                ltac:(lia)) as Hdm.
  rewrite G_order in Hdm.
  replace (pp.(Params.G) ^ (pp.(Params.Q) - 1) * pp.(Params.G))
    with (pp.(Params.G) ^ pp.(Params.Q)).
  - lia.
  - replace pp.(Params.Q) with (Z.succ (pp.(Params.Q) - 1)) at 1 by lia.
    rewrite Z.pow_succ_r by lia. ring.
Qed.

(** Exponents of [g] only matter modulo [q]. *)
Lemma pow_mod_order (e : Z) :
  0 <= e ->
  pp.(Params.G) ^ (e mod pp.(Params.Q)) mod pp.(Params.P)
  = pp.(Params.G) ^ e mod pp.(Params.P).
Proof.
  intros He.
  pose proof (Z.div_mod e pp.(Params.Q) ltac:(lia)) as Hdm.
  pose proof (Z.mod_pos_bound e pp.(Params.Q) Q_pos).
  assert (0 <= e / pp.(Params.Q)) by (apply Z.div_pos; lia).
  assert (Hpow : pp.(Params.G) ^ e
                 = (pp.(Params.G) ^ pp.(Params.Q)) ^ (e / pp.(Params.Q))
                   * pp.(Params.G) ^ (e mod pp.(Params.Q))).
  { rewrite <- Z.pow_mul_r, <- Z.pow_add_r by lia. f_equal. exact Hdm. }
  rewrite Hpow.
  rewrite <- Zmult_mod_idemp_l.
  rewrite <- (Z.mod_pow_l (pp.(Params.G) ^ pp.(Params.Q))), G_order.
  rewrite Z.pow_1_l by assumption.
  rewrite Z.mod_1_l, Z.mul_1_l by lia. reflexivity.
Qed.

(** The table of [AGen]: every entry is an index [i] of the range stored
    under [g^i mod p], and every index of the range has its key present. *)
Lemma AGen_table_spec (n : nat) :
  forall (i0 : Z) (T0 : gmap string Z),
    0 <= i0 ->
    exists T',
      AGen_table n pp i0 T0 = Ok T'
      /\ (forall k v, T' !! k = Some v ->
            T0 !! k = Some v
            \/ (i0 <= v < i0 + Z.of_nat n
                /\ k = pretty (pp.(Params.G) ^ v mod pp.(Params.P))))
      /\ (forall k, is_Some (T0 !! k) -> is_Some (T' !! k))
      /\ (forall j, i0 <= j < i0 + Z.of_nat n ->
            is_Some (T' !! pretty (pp.(Params.G) ^ j mod pp.(Params.P)))).
Proof.
  induction n as [|n IH]; intros i0 T0 Hi0.
  - exists T0. simpl. repeat split; auto. intros j Hj. lia.
  - cbn [AGen_table]. unfold modExp. rewrite Exp_pos_mod by lia. simpl.
    destruct (IH (i0 + 1)
                (<[pretty (pp.(Params.G) ^ i0 mod pp.(Params.P)) := i0]> T0)
                ltac:(lia)) as (T' & Hrun & Hsome & Hkeep & Hnew).
    exists T'. unfold big.String. rewrite Hrun. repeat split.
    + intros k v Hkv. destruct (Hsome k v Hkv) as [Hins|[Hv ->]].
      * apply lookup_insert_Some in Hins as [[<- <-]|[_ Hold]]; [|auto].
        right. split; [lia | reflexivity].
      * right. split; [lia | reflexivity].
    + intros k Hk. apply Hkeep.
      destruct (decide (pretty (pp.(Params.G) ^ i0 mod pp.(Params.P)) = k))
        as [<-|Hne].
      * rewrite lookup_insert_eq. eauto.
      * now rewrite lookup_insert_ne.
    + intros j Hj. destruct (decide (j = i0)) as [->|Hne].
      * apply Hkeep. rewrite lookup_insert_eq. eauto.
      * apply Hnew. lia.
Qed.

Lemma AGen_table_of (l pk pk' : Z) (t t' : tape) (K' : list Z)
    (Tmap : gmap string Z) :
  AGen l pp pk t = Ok (K', Tmap, pk', t') ->
  AGen_table (Z.to_nat l) pp 0 ∅ = Ok Tmap.
Proof.
  unfold AGen. unfold_rand.
  destruct (rand_Read 16 t) as [[K1 t1]|]; [|discriminate].
  destruct (AGen_table (Z.to_nat l) pp 0 ∅); [|discriminate].
  now intros [= _ <- _ _].
Qed.

(** The candidate [ADec] looks up for [x]: [c1] times the inverse of
    [g^F(K, x, y)]. *)
Lemma ADec_sVal_value (c1 y x tVal : Z) :
  F pp K x y = Ok tVal ->
  ADec_sVal pp K c1 y x
  = Ok (Some ((c1 * Z.invmod (pp.(Params.G) ^ tVal mod pp.(Params.P))
                             pp.(Params.P)) mod pp.(Params.P))).
Proof.
  intros HF. unfold ADec_sVal. rewrite HF. simpl.
  pose proof (F_range _ _ _ _ _ HF).
  unfold modExp, modInverse, modMul.
  rewrite Exp_pos_mod by lia. simpl.
  rewrite (ModInverse_pow pp P_big G_unit_of_order) by lia. simpl.
  now rewrite Mod_pos by lia.
Qed.

(** [F] returns for every [x] and [y] as soon as it returns for one. *)
Lemma F_total (x y x' y' tVal : Z) :
  F pp K x y = Ok tVal -> exists tVal', F pp K x' y' = Ok tVal'.
Proof.
  intros HF. destruct (F pp K x' y') as [v|] eqn:HF'; [eauto|].
  apply F_Panic in HF'. apply (F_Panic pp K x y) in HF'. congruence.
Qed.

(** The search returns the index of its first hit: when every hit of the
    range decodes to [h] and there is a hit, the answer is [h]. *)
Lemma ADec_loop_first (Tmap : gmap string Z) (c1 y h : Z) (n : nat) :
  forall x0,
    (forall x', x0 <= x' < x0 + Z.of_nat n ->
       exists s, ADec_sVal pp K c1 y x' = Ok (Some s)
                 /\ forall v, Tmap !! pretty s = Some v -> v = h) ->
    (exists x' s, x0 <= x' < x0 + Z.of_nat n
                  /\ ADec_sVal pp K c1 y x' = Ok (Some s)
                  /\ is_Some (Tmap !! pretty s)) ->
    ADec_loop n pp K Tmap c1 y x0 = Ok (Some h).
Proof.
  induction n as [|n IH]; intros x0 Hall Hhit.
  - destruct Hhit as (x' & _ & Hx' & _). lia.
  - cbn [ADec_loop].
    destruct (Hall x0 ltac:(lia)) as (s & Hs & Hdec). rewrite Hs. simpl.
    unfold big.String.
    destruct (Tmap !! pretty s) as [v|] eqn:Hlook.
    + now rewrite (Hdec v eq_refl).
    + apply IH.
      * intros x' Hx'. apply Hall. lia.
      * destruct Hhit as (x' & s' & Hx' & Hs' & Hsome).
        exists x', s'. repeat split; auto; try lia.
        destruct (decide (x' = x0)) as [->|]; [|lia].
        rewrite Hs in Hs'. injection Hs' as <-.
        rewrite Hlook in Hsome. now destruct Hsome.
Qed.

End ADecFacts.

(** C1 (as the code has it). Let the group be sound ([p > 1], [q > 0],
    [g^q = 1 mod p]), let the symmetric key and the reverse table come from
    [AGen] over the domain size [L], and let [AEnc] have returned [(c0, c1,
    r)] for a hidden message of [[0, L)] and any cover message.  If decoding
    is unambiguous, that is, no [x'] of [[0, S)] sends [c1] to the table
    entry of an index other than the hidden message, then [ADec] recovers
    the hidden message. *)
Theorem ADec_AEnc_unambiguous (app : AParams.t) (pp : Params.t) (K : list Z)
    (Tmap : gmap string Z) (pk pk' cover hidden : Z) (attempts : nat)
    (tg tg' te te' : tape) (c0 c1 r : Z) :
  1 < pp.(Params.P) ->
  0 < pp.(Params.Q) ->
  pp.(Params.G) ^ pp.(Params.Q) mod pp.(Params.P) = 1 ->
  0 <= hidden < app.(AParams.L) ->
  AGen app.(AParams.L) pp pk tg = Ok (K, Tmap, pk', tg') ->
  AEnc attempts app pp K pk cover hidden te = Ok (Some (c0, c1, r), te') ->
  (forall x' i,
     0 <= x' < app.(AParams.S) -> 0 <= i < app.(AParams.L) ->
     ADec_sVal pp K c1 (c1 mod app.(AParams.T)) x'
     = Ok (Some (pp.(Params.G) ^ i mod pp.(Params.P))) ->
     i = hidden) ->
  ADec app pp K Tmap c0 c1 = Ok (Some hidden).
Proof.
  intros HP HQ Hord Hhid Hgen Henc Hunamb.
  apply AEnc_returns_accepted in Henc as (t0 & Htry).
  apply AEnc_try_accepted in Htry
    as (x & y & tVal & Hx & Hy & HF & _ & Hr & Hc1 & Hycheck & _).
  rewrite Z.abs_eq in Hr, Hc1, Hycheck by lia.
  pose proof (F_range _ _ _ _ _ HF) as HtVal.
  apply AGen_table_of in Hgen.
  destruct (AGen_table_spec pp HP (Z.to_nat app.(AParams.L)) 0 ∅ ltac:(lia))
    as (T' & HT' & Hentry & _ & Hpresent).
  rewrite Hgen in HT'. injection HT' as <-.
  rewrite Z2Nat.id in Hentry, Hpresent by lia.
  unfold ADec. rewrite Mod_pos by lia. simpl. rewrite Hycheck.
  apply ADec_loop_first.
  - intros x' Hx'. rewrite Z2Nat.id in Hx' by lia.
    destruct (F_total pp K x y x' y tVal HF) as (tVal' & HF').
    eexists. split; [exact (ADec_sVal_value pp K HP HQ Hord c1 y x' tVal' HF')|].
    intros v Hv. destruct (Hentry _ _ Hv) as [Hempty|[Hvrange Hkey]].
    + rewrite lookup_empty in Hempty. discriminate.
    + apply (inj pretty) in Hkey.
      apply (Hunamb x' v); [lia | lia |].
      rewrite Hycheck, (ADec_sVal_value pp K HP HQ Hord c1 y x' tVal' HF').
      now rewrite Hkey.
  - exists x, (pp.(Params.G) ^ hidden mod pp.(Params.P)).
    rewrite Z2Nat.id by lia. repeat split; [lia | lia | | apply Hpresent; lia].
    rewrite (ADec_sVal_value pp K HP HQ Hord c1 y x tVal HF). do 2 f_equal.
    rewrite Hc1, Hr, (pow_mod_order pp HP HQ Hord) by lia.
    rewrite Z.pow_add_r by lia.
    rewrite Zmult_mod_idemp_l.
    replace (pp.(Params.G) ^ hidden * pp.(Params.G) ^ tVal
             * Z.invmod (pp.(Params.G) ^ tVal mod pp.(Params.P)) pp.(Params.P))
      with (pp.(Params.G) ^ hidden
            * Z.invmod (pp.(Params.G) ^ tVal mod pp.(Params.P)) pp.(Params.P)
            * pp.(Params.G) ^ tVal) by ring.
    rewrite <- Zmult_mod_idemp_r.
    apply (mul_pow_invmod pp HP (G_unit_of_order pp HP HQ Hord)). lia.
Qed.

Lemma ADec_AEnc_unambiguous_witness :
  run (AEnc 1 demo_app_3 demo_pp_1019 demo_K 32 7 1) demo_tape_one
  = Ok (Some (1018, 565, 640))
  /\ ADec demo_app_3 demo_pp_1019 demo_K demo_Tmap_1019 1018 565 = Ok (Some 1).
Proof.
  split; [vm_compute; reflexivity|].
  apply (ADec_AEnc_unambiguous demo_app_3 demo_pp_1019 demo_K demo_Tmap_1019
           32 32 7 1 1 demo_tape_zero (tape_drop 16 demo_tape_zero)
           demo_tape_one (tape_drop 2 demo_tape_one) 1018 565 640).
  - simpl. lia.
  - simpl. lia.
  - vm_compute. reflexivity.
  - simpl. lia.
  - vm_compute. reflexivity.
  - vm_compute. reflexivity.
  - intros x' i Hx Hi Hs. simpl in Hx, Hi.
    assert (x' = 0 \/ x' = 1 \/ x' = 2) as [-> | [-> | ->]] by lia;
      assert (i = 0 \/ i = 1 \/ i = 2) as [-> | [-> | ->]] by lia;
      first [reflexivity | vm_compute in Hs; congruence].
Defined.

(** C1, counterexample. In the group [p = 23], [q = 22], [g = 5] (a
    generator, [5^22 = 1 mod 23]) with [L = S = T = 4], the key and table of
    [AGen], public key 10, cover message 7 and hidden message 0: [AEnc]
    accepts the draw [(x, y) = (2, 1)], for which [F] is 13, so [r = 13] and
    [c1 = 5^13 mod 23 = 21], and returns [(13, 21, 13)].  The search of
    [ADec] starts at [x = 0], where [F] is 10 and the candidate is
    [21 * (5^10)^-1 mod 23 = 10 = 5^3 mod 23]: a table hit, and [ADec]
    returns 3. *)
Lemma ADec_AEnc_roundtrip_counterexample :
  5 ^ 22 mod 23 = 1
  /\ run (AGen 4 demo_pp 10) demo_tape_zero = Ok (demo_K, demo_Tmap, 10)
  /\ 0 <= 0 < 4
  /\ F demo_pp demo_K 2 1 = Ok 13
  /\ run (AEnc 1 demo_app demo_pp demo_K 10 7 0) demo_tape_two_one
     = Ok (Some (13, 21, 13))
  /\ F demo_pp demo_K 0 1 = Ok 10
  /\ ADec_sVal demo_pp demo_K 21 1 0 = Ok (Some 10)
  /\ demo_Tmap !! big.String 10 = Some 3
  /\ ADec demo_app demo_pp demo_K demo_Tmap 13 21 = Ok (Some 3)
  /\ ADec demo_app demo_pp demo_K demo_Tmap 13 21 <> Ok (Some 0).
Proof.
  repeat split; try (vm_compute; reflexivity); try lia.
  vm_compute. discriminate.
Qed.

(** * Further properties of the package *)

(** ** Key generation, encryption and decryption *)

Section KeyFacts.

Variable pp : Params.t.

Lemma KGen_unfold (t : tape) :
  run (KGen pp) t =
  if pp.(Params.Q) <=? 0 then Panic
  else
    let sk := if decide (t 0%nat mod pp.(Params.Q) = 0) then 1
              else t 0%nat mod pp.(Params.Q) in
    Ok (sk, if decide (pp.(Params.P) = 0) then pp.(Params.G) ^ sk
            else pp.(Params.G) ^ sk mod Z.abs pp.(Params.P)).
Proof.
  unfold run, KGen. unfold_rand.
  destruct (Z.leb_spec pp.(Params.Q) 0); [reflexivity|].
  pose proof (Z.mod_pos_bound (t 0%nat) pp.(Params.Q) ltac:(lia)).
  cbv zeta. rewrite Exp_nonneg by (destruct (decide _); lia).
  reflexivity.
Qed.


End KeyFacts.

(** X1. For a group order [q >= 2] and a modulus [p <> 0], whatever the
    random source yields, [KGen] returns a secret key of [[1, q-1]] together
    with [g^sk mod |p|], a residue of [[0, |p|)]. *)
Theorem KGen_key_range (pp : Params.t) (t : tape) :
  2 <= pp.(Params.Q) -> pp.(Params.P) <> 0 ->
  exists sk pk,
    run (KGen pp) t = Ok (sk, pk)
    /\ 1 <= sk < pp.(Params.Q)
    /\ pk = pp.(Params.G) ^ sk mod Z.abs pp.(Params.P)
    /\ 0 <= pk < Z.abs pp.(Params.P).
Proof.
  intros HQ HP. rewrite KGen_unfold.
  destruct (Z.leb_spec pp.(Params.Q) 0); [lia|].
  destruct (decide (pp.(Params.P) = 0)); [contradiction|].
  pose proof (Z.mod_pos_bound (t 0%nat) pp.(Params.Q) ltac:(lia)).
  cbv zeta. do 2 eexists. split; [reflexivity|].
  split; [destruct (decide _); lia|].
  split; [reflexivity|]. apply Z.mod_pos_bound. lia.
Qed.

Lemma KGen_key_range_witness :
  exists sk pk,
    run (KGen demo_pp) (fun _ => 47) = Ok (sk, pk)
    /\ 1 <= sk < 22 /\ pk = 5 ^ sk mod 23 /\ 0 <= pk < 23.
Proof.
  apply (KGen_key_range demo_pp (fun _ => 47)); simpl; lia.
Defined.


(** X3. In a group with [p > 1], [q > 0] and [g] a unit modulo [p], for a
    key pair of [KGen] and a message of [[0, p)]: [Enc] returns
    [g^r mod p] first and [msg * pk^r mod p] second, and [Dec] applied to
    the second and the first, in this order, gives the message back. *)
Theorem Enc_Dec_exchanged_roundtrip (pp : Params.t) (msg : Z) (tk te : tape) :
  1 < pp.(Params.P) -> 0 < pp.(Params.Q) ->
  Z.gcd pp.(Params.G) pp.(Params.P) = 1 ->
  0 <= msg < pp.(Params.P) ->
  exists sk pk first second r,
    run (KGen pp) tk = Ok (sk, pk)
    /\ run (Enc pp.(Params.P) pp.(Params.Q) pp.(Params.G) pk msg) te
       = Ok (first, second, r)
    /\ first = pp.(Params.G) ^ r mod pp.(Params.P)
    /\ second = (msg * (pk ^ r mod pp.(Params.P))) mod pp.(Params.P)
    /\ Dec pp sk second first = Ok msg.
Proof.
  intros HP HQ HG Hm.
  destruct (KGen_returns pp HP HQ tk) as (sk & Hkey & Hsk).
  destruct (Enc_returns pp HP HQ (pp.(Params.G) ^ sk mod pp.(Params.P)) msg te)
    as (r & Henc & Hr).
  do 5 eexists. split; [exact Hkey|]. split; [exact Henc|].
  split; [reflexivity|]. split; [reflexivity|].
  apply Dec_Enc_components; auto with lia.
Qed.

Lemma Enc_Dec_exchanged_roundtrip_witness :
  exists sk pk first second r,
    run (KGen demo_pp) (fun _ => 3) = Ok (sk, pk)
    /\ run (Enc 23 22 5 pk 2) (fun _ => 1) = Ok (first, second, r)
    /\ first = 5 ^ r mod 23
    /\ second = (2 * (pk ^ r mod 23)) mod 23
    /\ Dec demo_pp sk second first = Ok 2.
Proof.
  apply (Enc_Dec_exchanged_roundtrip demo_pp 2 (fun _ => 3) (fun _ => 1));
    simpl; try lia. reflexivity.
Defined.

Section DecFacts.

Variable pp : Params.t.

Lemma ModInverse_nonneg (g n : Z) :
  0 <= g ->
  big.ModInverse g n
  = Ok (if Z.gcd g (Z.abs n) =? 1 then Some (Z.invmod g (Z.abs n)) else None).
Proof.
  intros Hg. unfold big.ModInverse.
  destruct (Z.ltb_spec g 0); [lia|]. reflexivity.
Qed.



End DecFacts.


(** X5. In a group with [p > 1] and [g] a unit modulo [p], a ciphertext
    [AEnc] returns for the public key [g^sk mod p] and a cover message of
    [[0, p)] is an ElGamal ciphertext of the cover message: its components
    are [c1 = g^r mod p] and [c0 = msg * pk^r mod p] with [0 <= r < |q|],
    and [Dec] with the secret key returns the cover message, whatever the
    hidden message. *)
Theorem AEnc_cover_decrypts (app : AParams.t) (pp : Params.t) (K : list Z)
    (sk msg cm : Z) (attempts : nat) (t t' : tape) (c0 c1 r : Z) :
  1 < pp.(Params.P) ->
  Z.gcd pp.(Params.G) pp.(Params.P) = 1 ->
  0 <= sk -> 0 <= msg < pp.(Params.P) ->
  AEnc attempts app pp K (pp.(Params.G) ^ sk mod pp.(Params.P)) msg cm t
  = Ok (Some (c0, c1, r), t') ->
  0 <= r < Z.abs pp.(Params.Q)
  /\ c1 = pp.(Params.G) ^ r mod pp.(Params.P)
  /\ c0 = (msg * ((pp.(Params.G) ^ sk mod pp.(Params.P)) ^ r
                  mod pp.(Params.P))) mod pp.(Params.P)
  /\ Dec pp sk c0 c1 = Ok msg.
Proof.
  intros HP HG Hsk Hm Henc.
  apply AEnc_returns_accepted in Henc as (t0 & Htry).
  apply AEnc_try_accepted in Htry
    as (x & y & tVal & _ & _ & _ & HQ & Hr & Hc1 & _ & Hc0).
  rewrite (Z.abs_eq pp.(Params.P)) in Hc1, Hc0 by lia.
  assert (0 <= r < Z.abs pp.(Params.Q))
    by (subst r; apply Z.mod_pos_bound; lia).
  repeat split; try lia; try assumption.
  subst c0 c1. apply Dec_Enc_components; auto with lia.
Qed.

Lemma AEnc_cover_decrypts_witness :
  0 <= 13 < Z.abs 22
  /\ 21 = 5 ^ 13 mod 23
  /\ 13 = (7 * ((5 ^ 3 mod 23) ^ 13 mod 23)) mod 23
  /\ Dec demo_pp 3 13 21 = Ok 7.
Proof.
  apply (AEnc_cover_decrypts demo_app demo_pp demo_K 3 7 0 1
           demo_tape_two_one (tape_drop 2 demo_tape_two_one) 13 21 13);
    try (simpl; lia); vm_compute; reflexivity.
Defined.

(** ** Failure of the anamorphic encryption, and the range of [F] *)

Section AEncPanic.

Variables (app : AParams.t) (pp : Params.t) (K : list Z).
Variables (pk msg cm : Z).

(** Whether a turn of the loop panics does not depend on the draw. *)
Lemma AEnc_try_Panic (t : tape) :
  AEnc_try app pp K pk msg cm t = Panic
  <-> app.(AParams.S) <= 0 \/ app.(AParams.T) <= 0
      \/ aes.NewCipher K = None \/ pp.(Params.P) = 0 \/ pp.(Params.Q) = 0.
Proof.
  unfold AEnc_try. unfold_rand.
  destruct (Z.leb_spec app.(AParams.S) 0) as [HS|HS];
    [split; [tauto | reflexivity]|].
  unfold tape_tail at 1.
  destruct (Z.leb_spec app.(AParams.T) 0) as [HT|HT];
    [split; [tauto | reflexivity]|].
  destruct (F pp K _ _) as [tVal|] eqn:HF.
  2:{ apply F_Panic in HF. split; [tauto | reflexivity]. }
  assert (HK : aes.NewCipher K <> None /\ pp.(Params.P) <> 0).
  { split; intros Hbad;
      assert (F pp K (t 0%nat mod app.(AParams.S)) (t 1%nat mod app.(AParams.T))
              = Panic) as HFp by (apply F_Panic; auto); congruence. }
  destruct HK as [HK HP].
  pose proof (F_range _ _ _ _ _ HF) as HtVal.
  destruct (big.Mod _ pp.(Params.Q)) as [r|] eqn:Hr.
  2:{ apply Mod_Panic in Hr. split; [tauto | reflexivity]. }
  pose proof (Mod_range _ _ _ Hr) as Hr_range.
  apply Mod_Ok in Hr as [HQ _].
  unfold modExp, modMul. rewrite !Exp_nonneg by lia.
  destruct (decide (pp.(Params.P) = 0)); [contradiction|]. simpl.
  rewrite Mod_pos by lia.
  destruct (decide _); [rewrite Mod_nonzero by assumption|];
    (split; [discriminate|];
     intros [?|[?|[?|[?|?]]]]; exfalso; (lia || contradiction)).
Qed.

Lemma AEnc_Panic_cause (n : nat) :
  forall t, AEnc n app pp K pk msg cm t = Panic ->
            AEnc_try app pp K pk msg cm t = Panic.
Proof.
  induction n as [|n IH]; intros t; [discriminate|].
  cbn [AEnc]. unfold mbind at 1, rand_bind at 1.
  destruct (AEnc_try app pp K pk msg cm t) as [[[ct|] t1]|] eqn:Htry;
    [discriminate | | reflexivity].
  intros Hrest. apply IH in Hrest.
  apply AEnc_try_Panic in Hrest. apply (AEnc_try_Panic t) in Hrest. congruence.
Qed.

End AEncPanic.

(** X6. [AEnc] panics exactly on degenerate parameters: a sampling bound
    [S] or [T] that is not positive, a key [aes.NewCipher] rejects, a zero
    modulus or a zero group order.  It then panics at its first turn, and
    with other parameters no number of turns makes it panic. *)
Theorem AEnc_panic (app : AParams.t) (pp : Params.t) (K : list Z)
    (pk msg cm : Z) (n : nat) (t : tape) :
  run (AEnc (S n) app pp K pk msg cm) t = Panic
  <-> app.(AParams.S) <= 0 \/ app.(AParams.T) <= 0
      \/ aes.NewCipher K = None \/ pp.(Params.P) = 0 \/ pp.(Params.Q) = 0.
Proof.
  unfold run. split.
  - intros Hrun. apply (AEnc_try_Panic app pp K pk msg cm t).
    apply (AEnc_Panic_cause _ _ _ _ _ _ (S n)).
    destruct (AEnc (S n) app pp K pk msg cm t); [discriminate | reflexivity].
  - intros Hbad. apply (AEnc_try_Panic app pp K pk msg cm t) in Hbad.
    cbn [AEnc]. unfold mbind at 1, rand_bind at 1. now rewrite Hbad.
Qed.

Lemma NewCipher_length (K : list Z) :
  aes.NewCipher K = None
  <-> length K <> 16%nat /\ length K <> 24%nat /\ length K <> 32%nat.
Proof.
  unfold aes.NewCipher.
  destruct (Nat.eqb_spec (length K) 16); [split; [discriminate | lia]|].
  destruct (Nat.eqb_spec (length K) 24); [split; [discriminate | lia]|].
  destruct (Nat.eqb_spec (length K) 32); [split; [discriminate | lia]|].
  simpl. split; auto.
Qed.

(** X7. With a key of 16, 24 or 32 bytes and a non-zero modulus, [F]
    returns, for all integers [x] and [y], a residue of [[0, |p|)]. *)
Theorem F_residue (pp : Params.t) (K : list Z) (x y : Z) :
  length K = 16%nat \/ length K = 24%nat \/ length K = 32%nat ->
  pp.(Params.P) <> 0 ->
  exists v, F pp K x y = Ok v /\ 0 <= v < Z.abs pp.(Params.P).
Proof.
  intros HK HP. destruct (F pp K x y) as [v|] eqn:HF.
  - exists v. split; [reflexivity|]. now apply F_range in HF.
  - apply F_Panic in HF as [HF|HF]; [|contradiction].
    apply NewCipher_length in HF. lia.
Qed.

Lemma F_residue_witness :
  exists v, F demo_pp demo_K (-5) (2 ^ 70) = Ok v /\ 0 <= v < Z.abs 23.
Proof.
  apply (F_residue demo_pp demo_K (-5) (2 ^ 70)); [left; reflexivity|].
  simpl. lia.
Defined.

(** ** [xorBytes] *)

Section XorFacts.

Lemma zip_with_lxor_cancel (a b : list Z) :
  length a = length b ->
  zip_with Z.lxor (zip_with Z.lxor a b) b = a.
Proof.
  revert b. induction a as [|x a IH]; intros [|y b] Hlen; simpl in *;
    try reflexivity; try discriminate.
  rewrite Z.lxor_assoc, Z.lxor_nilpotent, Z.lxor_0_r.
  f_equal. apply IH. lia.
Qed.

Lemma zip_with_lxor_comm (a b : list Z) :
  zip_with Z.lxor a b = zip_with Z.lxor b a.
Proof.
  revert b. induction a as [|x a IH]; intros [|y b]; simpl; try reflexivity.
  now rewrite Z.lxor_comm, IH.
Qed.

Lemma xorBytes_length (a b : list Z) :
  length (xorBytes a b) = Nat.max (length a) (length b).
Proof.
  unfold xorBytes. rewrite length_zip_with, !length_app, !length_replicate. lia.
Qed.

End XorFacts.

(** X8. [xorBytes] returns a slice as long as the longer argument, does not
    depend on the order of its arguments, and applied twice with the same
    second argument gives the first argument back, left-padded with zero
    bytes to that length. *)
Theorem xorBytes_twice (a b : list Z) :
  length (xorBytes a b) = Nat.max (length a) (length b)
  /\ xorBytes a b = xorBytes b a
  /\ xorBytes (xorBytes a b) b
     = replicate (Nat.max (length a) (length b) - length a) 0 ++ a.
Proof.
  split; [apply xorBytes_length|]. split.
  - unfold xorBytes. rewrite (Nat.max_comm (length b)).
    apply zip_with_lxor_comm.
  - unfold xorBytes at 1. rewrite xorBytes_length.
    rewrite Nat.max_l by lia. rewrite Nat.sub_diag. simpl.
    unfold xorBytes.
    replace (Nat.max (length a) (length b) `max` length b)%nat
      with (Nat.max (length a) (length b)) by lia.
    apply zip_with_lxor_cancel.
    rewrite !length_app, !length_replicate. lia.
Qed.

(** ** The double key of [AGen] *)

Section AGenFacts.

Variable pp : Params.t.

Lemma rand_Read_bytes (n : nat) :
  forall t, rand_Read n t
            = Ok (map (fun i => t i mod 256) (seq 0 n), tape_drop n t).
Proof.
  induction n as [|n IH]; intros t; [reflexivity|].
  cbn [rand_Read]. rewrite IH. cbn [tape_drop seq map].
  do 3 f_equal. rewrite <- seq_shift, map_map. reflexivity.
Qed.

(** The table loop never panics: its exponents are not negative. *)
Lemma AGen_table_total (n : nat) :
  forall i0 T0, 0 <= i0 -> exists T', AGen_table n pp i0 T0 = Ok T'.
Proof.
  induction n as [|n IH]; intros i0 T0 Hi0; [simpl; eauto|].
  cbn [AGen_table]. unfold modExp. rewrite Exp_nonneg by assumption. simpl.
  apply IH. lia.
Qed.

Lemma AGen_table_values (n : nat) :
  forall i0 T0 T' k v,
    AGen_table n pp i0 T0 = Ok T' ->
    T' !! k = Some v ->
    T0 !! k = Some v \/ i0 <= v < i0 + Z.of_nat n.
Proof.
  induction n as [|n IH]; intros i0 T0 T' k v Hrun Hkv.
  - injection Hrun as <-. auto.
  - cbn [AGen_table] in Hrun.
    destruct (deref _) as [val|]; [|discriminate]. simpl in Hrun.
    destruct (IH _ _ _ _ _ Hrun Hkv) as [Hins|Hv]; [|right; lia].
    apply lookup_insert_Some in Hins as [[_ <-]|[_ Hold]]; [right; lia | auto].
Qed.

Lemma AGen_table_size (n : nat) :
  forall i0 T0 T',
    AGen_table n pp i0 T0 = Ok T' -> (size T' <= size T0 + n)%nat.
Proof.
  induction n as [|n IH]; intros i0 T0 T' Hrun.
  - injection Hrun as <-. lia.
  - cbn [AGen_table] in Hrun.
    destruct (deref _) as [val|]; [|discriminate]. simpl in Hrun.
    apply IH in Hrun.
    pose proof (map_size_insert (big.String val) i0 T0) as Hsz.
    destruct (T0 !! big.String val); simpl in Hsz; lia.
Qed.

Hypothesis P_nonzero : pp.(Params.P) <> 0.

(** The table after the loop: an index of the range is stored under its
    power of [g] unless a later index has the same power; older entries
    survive under the keys the loop did not write. *)
Lemma AGen_table_last (n : nat) :
  forall i0 T0 T' k v,
    0 <= i0 ->
    AGen_table n pp i0 T0 = Ok T' ->
    T' !! k = Some v
    <-> (i0 <= v < i0 + Z.of_nat n
         /\ k = big.String (pp.(Params.G) ^ v mod Z.abs pp.(Params.P))
         /\ forall j, v < j < i0 + Z.of_nat n ->
              pp.(Params.G) ^ j mod Z.abs pp.(Params.P)
              <> pp.(Params.G) ^ v mod Z.abs pp.(Params.P))
        \/ (T0 !! k = Some v
            /\ forall j, i0 <= j < i0 + Z.of_nat n ->
                 k <> big.String (pp.(Params.G) ^ j mod Z.abs pp.(Params.P))).
Proof.
  induction n as [|n IH]; intros i0 T0 T' k v Hi0 Hrun.
  - injection Hrun as <-. split.
    + intros Hkv. right. split; [assumption|]. intros j Hj. lia.
    + intros [[Hv _]|[Hkv _]]; [lia | assumption].
  - cbn [AGen_table] in Hrun. unfold modExp in Hrun.
    rewrite Exp_nonneg in Hrun by assumption.
    destruct (decide (pp.(Params.P) = 0)); [contradiction|]. simpl in Hrun.
    rewrite (IH (i0 + 1) _ _ k v ltac:(lia) Hrun). clear IH Hrun.
    rewrite lookup_insert_Some. unfold big.String.
    rewrite Nat2Z.inj_succ.
    split.
    + intros [(Hv & Hk & Hlater)|[[[Hk Hv]|[Hk Hold]] Hfresh]].
      * left. repeat split; auto with lia;
          intros j Hj; apply Hlater; lia.
      * left. subst v. repeat split; auto with lia;
          intros j Hj Heq; apply (Hfresh j); [lia|]; now rewrite Heq, <- Hk.
      * right. split; [assumption|]. intros j Hj.
        destruct (decide (j = i0)) as [->|]; [congruence|].
        apply Hfresh. lia.
    + intros [(Hv & Hk & Hlater)|[Hold Hfresh]].
      * destruct (decide (v = i0)) as [->|Hne].
        -- right. split; [left; split; congruence|].
           intros j Hj Heq. subst k. apply (inj pretty) in Heq.
           apply (Hlater j); [lia | congruence].
        -- left. repeat split; auto with lia;
             intros j Hj; apply Hlater; lia.
      * right. split.
        -- right. split; [|assumption]. intros Heq.
           apply (Hfresh i0); [lia | congruence].
        -- intros j Hj. apply Hfresh. lia.
Qed.

End AGenFacts.

(** X9. [AGen] never panics, for any domain size, parameters and random
    source: it returns the public key unchanged, a key of 16 random bytes
    (the first 16 draws reduced modulo 256) and a table of at most [l]
    entries, which is empty when [l <= 0]. *)
Theorem AGen_returns (l : Z) (pp : Params.t) (pk : Z) (t : tape) :
  exists K T,
    AGen l pp pk t = Ok (K, T, pk, tape_drop 16 t)
    /\ K = map (fun i => t i mod 256) (seq 0 16)
    /\ length K = 16%nat
    /\ Forall (fun b => 0 <= b < 256) K
    /\ (size T <= Z.to_nat l)%nat
    /\ (l <= 0 -> T = ∅).
Proof.
  destruct (AGen_table_total pp (Z.to_nat l) 0 ∅ ltac:(lia)) as (T & HT).
  exists (map (fun i => t i mod 256) (seq 0 16)), T.
  split.
  - unfold AGen. unfold_rand. rewrite rand_Read_bytes, HT. reflexivity.
  - split; [reflexivity|]. split; [reflexivity|]. split.
    + apply Forall_forall. intros b Hb.
      apply list_elem_of_In, in_map_iff in Hb as (i & <- & _).
      apply Z.mod_pos_bound. lia.
    + split.
      * apply AGen_table_size in HT. rewrite map_size_empty in HT. lia.
      * intros Hl. replace (Z.to_nat l) with 0%nat in HT by lia.
        now injection HT as <-.
Qed.

(** X10. With a non-zero modulus, the table [AGen] returns for the domain
    size [l] holds exactly the entries that map [g^v mod |p|], rendered in
    decimal, to an index [v] of [[0, l)] such that no later index of the
    range has the same power: on a collision the last index wins. *)
Theorem AGen_table_lookup (l : Z) (pp : Params.t) (pk pk' : Z) (t t' : tape)
    (K : list Z) (T : gmap string Z) (k : string) (v : Z) :
  pp.(Params.P) <> 0 ->
  AGen l pp pk t = Ok (K, T, pk', t') ->
  T !! k = Some v
  <-> 0 <= v < l
      /\ k = big.String (pp.(Params.G) ^ v mod Z.abs pp.(Params.P))
      /\ forall j, v < j < l ->
           pp.(Params.G) ^ j mod Z.abs pp.(Params.P)
           <> pp.(Params.G) ^ v mod Z.abs pp.(Params.P).
Proof.
  intros HP Hgen. apply AGen_table_of in Hgen.
  rewrite (AGen_table_last pp HP _ 0 _ _ k v ltac:(lia) Hgen).
  rewrite lookup_empty. split.
  - intros [(Hv & Hk & Hlater)|[Hempty _]]; [|discriminate].
    repeat split; auto with lia; intros j Hj; apply Hlater; lia.
  - intros (Hv & Hk & Hlater). left.
    repeat split; auto with lia; intros j Hj; apply Hlater; lia.
Qed.

Lemma AGen_table_lookup_witness :
  demo_Tmap_7 !! "1" = Some 3
  <-> 0 <= 3 < 4
      /\ "1" = big.String (2 ^ 3 mod Z.abs 7)
      /\ forall j, 3 < j < 4 -> 2 ^ j mod Z.abs 7 <> 2 ^ 3 mod Z.abs 7.
Proof.
  apply (AGen_table_lookup 4 demo_pp_7 10 10 demo_tape_zero
           (tape_drop 16 demo_tape_zero) demo_K demo_Tmap_7 "1" 3).
  - simpl. lia.
  - vm_compute. reflexivity.
Defined.

(** X11. With a non-zero modulus, when the powers [g^i mod |p|] of the
    indices of [[0, l)] are pairwise distinct, looking up the decimal
    rendering of [g^i mod |p|] in the table of [AGen] gives [i] back, for
    every [i] of [[0, l)]. *)
Theorem AGen_table_inverts (l : Z) (pp : Params.t) (pk pk' : Z) (t t' : tape)
    (K : list Z) (T : gmap string Z) (i : Z) :
  pp.(Params.P) <> 0 ->
  (forall a b, 0 <= a < l -> 0 <= b < l ->
     pp.(Params.G) ^ a mod Z.abs pp.(Params.P)
     = pp.(Params.G) ^ b mod Z.abs pp.(Params.P) -> a = b) ->
  AGen l pp pk t = Ok (K, T, pk', t') ->
  0 <= i < l ->
  T !! big.String (pp.(Params.G) ^ i mod Z.abs pp.(Params.P)) = Some i.
Proof.
  intros HP Hinj Hgen Hi. apply AGen_table_of in Hgen.
  apply (AGen_table_last pp HP _ 0 _ _ _ i ltac:(lia) Hgen). left.
  split; [lia|]. split; [reflexivity|].
  intros j Hj Heq. apply Hinj in Heq; lia.
Qed.

Lemma AGen_table_inverts_witness :
  demo_Tmap !! big.String (5 ^ 3 mod Z.abs 23) = Some 3.
Proof.
  apply (AGen_table_inverts 4 demo_pp 10 10 demo_tape_zero
           (tape_drop 16 demo_tape_zero) demo_K demo_Tmap 3).
  - simpl. lia.
  - intros a b Ha Hb.
    assert (a = 0 \/ a = 1 \/ a = 2 \/ a = 3) as [-> | [-> | [-> | ->]]] by lia;
      assert (b = 0 \/ b = 1 \/ b = 2 \/ b = 3) as [-> | [-> | [-> | ->]]]
        by lia;
      vm_compute; congruence.
  - vm_compute. reflexivity.
  - lia.
Defined.

(** ** Anamorphic decryption: failure and range *)

Section ADecMore.

Variables (app : AParams.t) (pp : Params.t) (K : list Z).
Variable Tmap : gmap string Z.

Lemma ADec_sVal_Panic (c1 y x : Z) :
  ADec_sVal pp K c1 y x = Panic
  <-> aes.NewCipher K = None \/ pp.(Params.P) = 0.
Proof.
  unfold ADec_sVal. destruct (F pp K x y) as [tVal|] eqn:HF; simpl.
  - assert (HP : pp.(Params.P) <> 0 /\ aes.NewCipher K <> None).
    { split; intros Hbad;
        assert (F pp K x y = Panic) as HFp by (apply F_Panic; auto);
        congruence. }
    destruct HP as [HP HK].
    pose proof (F_range _ _ _ _ _ HF).
    unfold modExp, modInverse, modMul. rewrite Exp_nonneg by lia.
    destruct (decide (pp.(Params.P) = 0)); [contradiction|]. simpl.
    rewrite ModInverse_nonneg by (apply Z.mod_pos_bound; lia). simpl.
    destruct (Z.gcd _ _ =? 1); [rewrite Mod_nonzero by assumption; simpl|];
      (split; [discriminate | tauto]).
  - apply F_Panic in HF. tauto.
Qed.

Lemma ADec_loop_Panic (c1 y : Z) (n : nat) :
  forall x,
    ADec_loop n pp K Tmap c1 y x = Panic
    <-> (0 < n)%nat /\ (aes.NewCipher K = None \/ pp.(Params.P) = 0).
Proof.
  induction n as [|n IH]; intros x.
  - simpl. split; [discriminate | lia].
  - cbn [ADec_loop].
    destruct (ADec_sVal pp K c1 y x) as [s|] eqn:Hs; simpl.
    + assert (Hok : ~ (aes.NewCipher K = None \/ pp.(Params.P) = 0)).
      { intros Hbad. apply (ADec_sVal_Panic c1 y x) in Hbad. congruence. }
      destruct (s ≫= _); [split; [discriminate | tauto]|].
      rewrite IH. tauto.
    + apply ADec_sVal_Panic in Hs. split; [intros _; split; [lia | assumption]|].
      reflexivity.
Qed.

(** A value the search returns is a value of the table. *)
Lemma ADec_loop_Some (c1 y v : Z) (n : nat) :
  forall x,
    ADec_loop n pp K Tmap c1 y x = Ok (Some v) ->
    exists s, Tmap !! big.String s = Some v.
Proof.
  induction n as [|n IH]; intros x; [discriminate|].
  cbn [ADec_loop].
  destruct (ADec_sVal pp K c1 y x) as [[s|]|]; simpl; try discriminate.
  - destruct (Tmap !! big.String s) as [w|] eqn:Hw.
    + intros [= <-]. eauto.
    + apply IH.
  - apply IH.
Qed.

End ADecMore.

(** X12. [ADec] panics exactly when the modulus [T] of the accept test is
    zero, or the search range is not empty ([S > 0]) and the key is one
    [aes.NewCipher] rejects or the group modulus is zero.  With a valid key
    and non-zero moduli it returns for every table and every ciphertext. *)
Theorem ADec_panic (app : AParams.t) (pp : Params.t) (K : list Z)
    (Tmap : gmap string Z) (c0 c1 : Z) :
  ADec app pp K Tmap c0 c1 = Panic
  <-> app.(AParams.T) = 0
      \/ (0 < app.(AParams.S)
          /\ (aes.NewCipher K = None \/ pp.(Params.P) = 0)).
Proof.
  unfold ADec. destruct (big.Mod c1 app.(AParams.T)) as [y|] eqn:Hy; simpl.
  - apply Mod_Ok in Hy as [HT _]. rewrite ADec_loop_Panic.
    split; [intros [Hn Hbad]; right; split; [lia | assumption]|].
    intros [?|[HS Hbad]]; [contradiction|]. split; [lia | assumption].
  - apply Mod_Panic in Hy. tauto.
Qed.

(** X13. A value [ADec] returns is an entry of the table it was given; with
    the table of [AGen] for the domain size [l] it is an index of [[0, l)],
    for every key, ciphertext and sampling bounds. *)
Theorem ADec_result_range (app : AParams.t) (pp : Params.t) (K K' : list Z)
    (Tmap : gmap string Z) (l pk pk' : Z) (t t' : tape) (c0 c1 v : Z) :
  AGen l pp pk t = Ok (K', Tmap, pk', t') ->
  ADec app pp K Tmap c0 c1 = Ok (Some v) ->
  (exists k, Tmap !! k = Some v) /\ 0 <= v < l.
Proof.
  intros Hgen Hdec. apply AGen_table_of in Hgen.
  unfold ADec in Hdec.
  destruct (big.Mod c1 app.(AParams.T)) as [y|]; [|discriminate].
  simpl in Hdec. apply ADec_loop_Some in Hdec as (s & Hs).
  split; [eauto|].
  destruct (AGen_table_values pp _ _ _ _ _ _ Hgen Hs) as [Hempty|Hv].
  - rewrite lookup_empty in Hempty. discriminate.
  - lia.
Qed.

Lemma ADec_result_range_witness :
  (exists k, demo_Tmap !! k = Some 3) /\ 0 <= 3 < 4.
Proof.
  apply (ADec_result_range demo_app demo_pp demo_K demo_K demo_Tmap 4 10 10
           demo_tape_zero (tape_drop 16 demo_tape_zero) 13 21 3);
    vm_compute; reflexivity.
Defined.

(** ** Vote encoding and decoding *)



Section DecodeFacts.

Variable b : Z.
Hypothesis b_nonzero : b <> 0.

(** The loop never panics for a non-zero base, fills the next [n] slots
    and leaves the others alone; every digit is a Euclidean remainder. *)
Lemma DecodeCounts_loop_shape (n : nat) :
  forall (done rest : list Z) (tmp : Z),
    (n <= length rest)%nat ->
    exists ds,
      DecodeCounts_loop n (length done) b (done ++ rest) tmp
      = Ok (done ++ ds ++ drop n rest)
      /\ length ds = n
      /\ Forall (fun d => 0 <= d < Z.abs b) ds
      /\ (0 < b -> from_digits b ds = tmp mod b ^ Z.of_nat n).
Proof.
  induction n as [|n IH]; intros done rest tmp Hlen.
  - exists []. simpl. rewrite drop_0. repeat split; auto.
    intros _. now rewrite Z.mod_1_r.
  - destruct rest as [|y rest]; [simpl in Hlen; lia|].
    cbn [DecodeCounts_loop]. rewrite Mod_nonzero by assumption.
    unfold big.Div. destruct (decide (b = 0)); [contradiction|]. simpl.
    replace (<[length done := tmp mod Z.abs b]> (done ++ y :: rest))
      with ((done ++ [tmp mod Z.abs b]) ++ rest).
    2:{ rewrite <- (Nat.add_0_r (length done)) at 1.
        rewrite insert_app_r. simpl. now rewrite <- app_assoc. }
    replace (S (length done)) with (length (done ++ [tmp mod Z.abs b]))
      by (rewrite length_app; simpl; lia).
    destruct (IH (done ++ [tmp mod Z.abs b]) rest
                (if 0 <? b then tmp / b else - (tmp / - b))
                ltac:(simpl in Hlen; lia))
      as (ds & -> & Hds_len & Hds & Hval).
    exists (tmp mod Z.abs b :: ds). rewrite <- app_assoc. simpl.
    repeat split; auto with lia.
    + constructor; [apply Z.mod_pos_bound; lia | assumption].
    + intros Hb. specialize (Hval Hb).
      destruct (Z.ltb_spec 0 b); [|lia].
      rewrite Z.abs_eq, Hval by lia.
      rewrite Nat2Z.inj_succ, Z.pow_succ_r by lia.
      rewrite Z.rem_mul_r by (try apply Z.pow_pos_nonneg; lia).
      reflexivity.
Qed.

End DecodeFacts.

(** X15. For a positive base and [m >= 0] candidates, [DecodeCounts]
    returns [m] counts, each in [[0, base)], and they are the digits of the
    total: read back in base [base], least significant first, they give
    [total mod base^m]. *)
Theorem DecodeCounts_digits (total m base : Z) :
  0 < base -> 0 <= m ->
  exists counts,
    DecodeCounts total m base = Ok counts
    /\ Z.of_nat (length counts) = m
    /\ Forall (fun c => 0 <= c < base) counts
    /\ from_digits base counts = total mod base ^ m.
Proof.
  intros Hb Hm. unfold DecodeCounts.
  destruct (Z.ltb_spec m 0); [lia|].
  destruct (DecodeCounts_loop_shape base ltac:(lia) (Z.to_nat m) []
              (replicate (Z.to_nat m) 0) total) as (ds & Hrun & Hlen & Hds & Hval).
  { now rewrite length_replicate. }
  simpl in Hrun. rewrite Hrun.
  rewrite drop_replicate, Nat.sub_diag. simpl. rewrite app_nil_r.
  exists ds. split; [reflexivity|]. split; [lia|]. split.
  - now rewrite Z.abs_eq in Hds by lia.
  - rewrite (Hval Hb). now rewrite Z2Nat.id by lia.
Qed.

Lemma DecodeCounts_digits_witness :
  exists counts,
    DecodeCounts 1000 3 6 = Ok counts
    /\ Z.of_nat (length counts) = 3
    /\ Forall (fun c => 0 <= c < 6) counts
    /\ from_digits 6 counts = 1000 mod 6 ^ 3.
Proof. apply (DecodeCounts_digits 1000 3 6); lia. Defined.

(** X16. [DecodeCounts] panics exactly for a negative number of candidates
    and for a zero base with at least one candidate; with no candidate it
    returns the empty slice whatever the base. *)
Theorem DecodeCounts_panic (total m base : Z) :
  (DecodeCounts total m base = Panic <-> m < 0 \/ (0 < m /\ base = 0))
  /\ DecodeCounts total 0 base = Ok [].
Proof.
  split; [|reflexivity]. unfold DecodeCounts.
  destruct (Z.ltb_spec m 0) as [Hm|Hm]; [split; [auto | reflexivity]|].
  destruct (decide (base = 0)) as [->|Hb].
  - destruct (Z.to_nat m) as [|k] eqn:Hk.
    + simpl. split; [discriminate | lia].
    + simpl. split; [intros _; right; lia | reflexivity].
  - destruct (DecodeCounts_loop_shape base Hb (Z.to_nat m) []
                (replicate (Z.to_nat m) 0) total) as (ds & Hrun & _).
    { now rewrite length_replicate. }
    simpl in Hrun. rewrite Hrun. split; [discriminate | lia].
Qed.

(** ** Shares and blinding *)

Section ShareFacts.

(** With a non-negative remainder the loop fills the next [n] slots with
    non-negative draws and keeps the remainder non-negative. *)
Lemma SplitSecret_loop_shares (n : nat) :
  forall (done rest : list Z) (remaining : Z) (t : tape),
    0 <= remaining ->
    (n <= length rest)%nat ->
    exists xs rem',
      SplitSecret_loop n (length done) (done ++ rest) remaining t
      = Ok (done ++ xs ++ drop n rest, rem', tape_drop n t)
      /\ length xs = n
      /\ sumZ xs + rem' = remaining
      /\ 0 <= rem'
      /\ Forall (fun x => 0 <= x) xs.
Proof.
  induction n as [|n IH]; intros done rest remaining t Hrem Hlen.
  - exists [], remaining. simpl. rewrite drop_0. repeat split; auto with lia.
  - rewrite SplitSecret_loop_step.
    destruct (Z.leb_spec (remaining + 1) 0); [lia|]. cbv zeta.
    destruct rest as [|y rest]; [simpl in Hlen; lia|].
    pose proof (Z.mod_pos_bound (t 0%nat) (remaining + 1) ltac:(lia)) as Hx.
    set (x := t 0%nat mod (remaining + 1)) in *.
    replace (<[length done := x]> (done ++ y :: rest))
      with ((done ++ [x]) ++ rest).
    2:{ rewrite <- (Nat.add_0_r (length done)) at 1.
        rewrite insert_app_r. simpl. now rewrite <- app_assoc. }
    replace (S (length done)) with (length (done ++ [x]))
      by (rewrite length_app; simpl; lia).
    destruct (IH (done ++ [x]) rest (remaining - x) (tape_tail t)
                ltac:(lia) ltac:(simpl in Hlen; lia))
      as (xs & rem' & -> & Hxs_len & Hsum & Hrem' & Hxs).
    exists (x :: xs), rem'. rewrite <- app_assoc. simpl.
    repeat split; auto with lia; try (constructor; auto with lia).
Qed.

Lemma sumZ_bounds (l : list Z) :
  Forall (fun x => 0 <= x) l -> Forall (fun x => 0 <= x <= sumZ l) l.
Proof.
  induction 1 as [|x l Hx Hl IH]; [constructor|]. simpl.
  assert (0 <= sumZ l).
  { clear IH. induction Hl; simpl; lia. }
  constructor; [lia|].
  eapply Forall_impl; [exact IH|]. simpl. intros; lia.
Qed.

Lemma sumZ_Permutation (l1 l2 : list Z) :
  Permutation l1 l2 -> sumZ l1 = sumZ l2.
Proof. induction 1; simpl; lia. Qed.

End ShareFacts.

(** X17. For [n >= 1] and a secret [r >= 0], every share [SplitSecret]
    returns lies in [[0, r]], and the call consumes exactly [n - 1] draws of
    the random source. *)
Theorem SplitSecret_share_bounds (r n : Z) (t : tape) :
  1 <= n -> 0 <= r ->
  exists parts,
    SplitSecret r n t = Ok (parts, tape_drop (Z.to_nat (n - 1)) t)
    /\ Forall (fun x => 0 <= x <= r) parts.
Proof.
  intros Hn Hr.
  destruct (SplitSecret_loop_shares (Z.to_nat (n - 1)) []
              (replicate (Z.to_nat n) 0) r t Hr)
    as (xs & rem' & Hloop & Hlen & Hsum & Hrem' & Hxs).
  { rewrite length_replicate. lia. }
  simpl in Hloop.
  exists (xs ++ [rem']). split.
  - unfold SplitSecret. destruct (Z.ltb_spec n 0); [lia|].
    unfold mbind, rand_bind. rewrite Hloop.
    destruct (Z.ltb_spec (n - 1) 0); [lia|].
    unfold mret, rand_ret. do 2 f_equal.
    rewrite drop_replicate.
    replace (Z.to_nat n - Z.to_nat (n - 1))%nat with 1%nat by lia. simpl.
    rewrite <- Hlen, <- (Nat.add_0_r (length xs)).
    now rewrite insert_app_r.
  - replace r with (sumZ (xs ++ [rem'])).
    2:{ rewrite sumZ_app. simpl. lia. }
    apply sumZ_bounds. apply Forall_app. split; [assumption|].
    constructor; [assumption | constructor].
Qed.

Lemma SplitSecret_share_bounds_witness :
  exists parts,
    SplitSecret 10 3 (fun i => Z.of_nat (7 + 5 * i))
    = Ok (parts, tape_drop (Z.to_nat (3 - 1)) (fun i => Z.of_nat (7 + 5 * i)))
    /\ Forall (fun x => 0 <= x <= 10) parts.
Proof.
  apply (SplitSecret_share_bounds 10 3 (fun i => Z.of_nat (7 + 5 * i))); lia.
Defined.

(** X18. [SplitSecret] panics exactly when [n <= 0], or when the secret is
    negative and at least two shares are asked for; a single share is the
    secret itself, negative or not, and no draw is made. *)
Theorem SplitSecret_panic (r n : Z) (t : tape) :
  (run (SplitSecret r n) t = Panic <-> n <= 0 \/ (2 <= n /\ r < 0))
  /\ SplitSecret r 1 t = Ok ([r], t).
Proof.
  split; [|reflexivity].
  destruct (Z.le_gt_cases n 0) as [Hn|Hn].
  - split; [auto|]. intros _. unfold run, SplitSecret.
    destruct (Z.ltb_spec n 0); [reflexivity|].
    replace n with 0 by lia. reflexivity.
  - destruct (Z.lt_ge_cases r 0) as [Hr|Hr].
    + destruct (decide (n = 1)) as [->|Hn1].
      * split; [discriminate | lia].
      * split; [intros _; right; lia|]. intros _.
        unfold run, SplitSecret. destruct (Z.ltb_spec n 0); [lia|].
        unfold mbind, rand_bind.
        replace (Z.to_nat (n - 1)) with (S (Z.to_nat (n - 2))) by lia.
        rewrite SplitSecret_loop_step.
        destruct (Z.leb_spec (r + 1) 0); [reflexivity | lia].
    + destruct (SplitSecret_loop_total (Z.to_nat (n - 1)) 0
                  (replicate (Z.to_nat n) 0) r t Hr)
        as (ps & rem' & t1 & Hloop & _).
      unfold run, SplitSecret. destruct (Z.ltb_spec n 0); [lia|].
      unfold mbind, rand_bind. rewrite Hloop.
      destruct (Z.ltb_spec (n - 1) 0); [lia|].
      split; [discriminate | lia].
Qed.

(** X19. [ComputeBlindVotes] depends on the shares it is given only through
    their sum: handing it the same shares in another order gives the same
    blinded vote (or the same panic). *)
Theorem ComputeBlindVotes_shares_order (vi r base : Z)
    (shares shares' : list Z) (pp : Params.t) (app : AParams.t) :
  Permutation shares shares' ->
  ComputeBlindVotes vi r base shares pp app
  = ComputeBlindVotes vi r base shares' pp app.
Proof.
  intros Hperm. unfold ComputeBlindVotes.
  now rewrite !fold_left_add, (sumZ_Permutation _ _ Hperm).
Qed.

Lemma ComputeBlindVotes_shares_order_witness :
  ComputeBlindVotes 2 7 6 [5; 9; 1] demo_pp demo_app
  = ComputeBlindVotes 2 7 6 [1; 5; 9] demo_pp demo_app.
Proof.
  apply (ComputeBlindVotes_shares_order 2 7 6 [5; 9; 1] [1; 5; 9]).
  change [5; 9; 1] with ([5; 9] ++ [1]). symmetry. apply Permutation_cons_append.
Defined.

(** ** The tally *)

Section TallyMore.

Variables (app : AParams.t) (pp : Params.t) (K : list Z).
Variable Tmap : gmap string Z.

(** The signed reading changes a value by a multiple of [L]. *)
Lemma TallyVotes_signed_cong (S half b : Z) :
  S <> 0 -> TallyVotes_signed S half b mod Z.abs S = b mod Z.abs S.
Proof.
  intros HS. unfold TallyVotes_signed. destruct (half <? b); [|reflexivity].
  apply Z.eq_mod_abs.
  replace (b - S) with (b + (-1) * S) by lia. now apply Z.mod_add.
Qed.

Lemma sumZ_signed_cong (S half : Z) (l : list Z) :
  S <> 0 ->
  sumZ (map (TallyVotes_signed S half) l) mod Z.abs S = sumZ l mod Z.abs S.
Proof.
  intros HS. induction l as [|b l IH]; simpl; [reflexivity|].
  rewrite Zplus_mod, IH, TallyVotes_signed_cong by assumption.
  now rewrite <- Zplus_mod.
Qed.

Lemma TallyVotes_loop_Panic (S half : Z) (votes : list (Z * Z)) :
  forall total,
    TallyVotes_loop app pp K Tmap S half votes total = Panic
    <-> Exists (fun vote => ADec app pp K Tmap vote.1 vote.2 = Panic) votes.
Proof.
  induction votes as [|vote votes IH]; intros total.
  - simpl. split; [discriminate|]. intros H. inversion H.
  - cbn [TallyVotes_loop]. rewrite Exists_cons.
    destruct (ADec app pp K Tmap vote.1 vote.2) as [[bi|]|]; simpl.
    + rewrite IH. split; [auto|]. intros [?|?]; [discriminate | assumption].
    + rewrite IH. split; [auto|]. intros [?|?]; [discriminate | assumption].
    + split; auto.
Qed.

End TallyMore.

(** X20. For [L <> 0], when [ADec] returns for every submitted ciphertext,
    [TallyVotes] returns the plain sum of the recovered values reduced
    modulo [|L|]: ciphertexts answered with nil are skipped, and the signed
    reading of a value does not change the total.  The order of the votes
    therefore plays no role. *)
Theorem TallyVotes_plain_sum (app : AParams.t) (pp : Params.t) (K : list Z)
    (Tmap : gmap string Z) (votes : list (Z * Z))
    (recovered : list (option Z)) :
  app.(AParams.L) <> 0 ->
  Forall2 (fun vote o => ADec app pp K Tmap vote.1 vote.2 = Ok o)
          votes recovered ->
  TallyVotes app pp K Tmap votes
  = Ok (sumZ (omap id recovered) mod Z.abs app.(AParams.L)).
Proof.
  intros HL Hrec. unfold TallyVotes.
  destruct (big.Div app.(AParams.L) 2) as [half|] eqn:Hhalf;
    [|unfold big.Div in Hhalf; simpl in Hhalf; discriminate].
  simpl. rewrite (TallyVotes_loop_sum _ _ _ _ _ _ _ _ _ Hrec). simpl.
  rewrite Mod_nonzero, Z.add_0_l by assumption.
  now rewrite sumZ_signed_cong by assumption.
Qed.

Lemma TallyVotes_plain_sum_witness :
  TallyVotes demo_app demo_pp demo_K demo_Tmap [(7, 8); (7, 21); (7, 2)]
  = Ok (sumZ (omap id [Some 2; Some 3; None]) mod Z.abs 4).
Proof.
  apply (TallyVotes_plain_sum demo_app demo_pp demo_K demo_Tmap
           [(7, 8); (7, 21); (7, 2)] [Some 2; Some 3; None]).
  - simpl. lia.
  - repeat constructor; vm_compute; reflexivity.
Defined.

(** X21. [TallyVotes] panics exactly when [L] is zero (also with no vote at
    all) or [ADec] panics on one of the submitted ciphertexts. *)
Theorem TallyVotes_panic (app : AParams.t) (pp : Params.t) (K : list Z)
    (Tmap : gmap string Z) (votes : list (Z * Z)) :
  TallyVotes app pp K Tmap votes = Panic
  <-> app.(AParams.L) = 0
      \/ Exists (fun vote => ADec app pp K Tmap vote.1 vote.2 = Panic) votes.
Proof.
  unfold TallyVotes.
  destruct (big.Div app.(AParams.L) 2) as [half|] eqn:Hhalf;
    [|unfold big.Div in Hhalf; simpl in Hhalf; discriminate].
  simpl.
  destruct (TallyVotes_loop app pp K Tmap app.(AParams.L) half votes 0)
    as [total|] eqn:Hloop; simpl.
  - rewrite Mod_Panic. split; [auto|]. intros [?|Hex]; [assumption|].
    apply (TallyVotes_loop_Panic app pp K Tmap app.(AParams.L) half votes 0)
      in Hex. congruence.
  - apply TallyVotes_loop_Panic in Hloop. split; auto.
Qed.

(** ** The winner *)

Section WinnerFacts.

Variable counts : list Z.

(** The loop keeps in [maxIdx] the first index of a largest count among the
    indices it has seen. *)
Lemma DetermineWinner_loop_spec (n : nat) :
  forall (i maxIdx : nat) (cmax : Z),
    (i + n = length counts)%nat ->
    (maxIdx < i)%nat ->
    counts !! maxIdx = Some cmax ->
    (forall k c, (k < i)%nat -> counts !! k = Some c -> c <= cmax) ->
    (forall k c, (k < maxIdx)%nat -> counts !! k = Some c -> c < cmax) ->
    exists w cw,
      DetermineWinner_loop counts i maxIdx n = Ok w
      /\ (w < length counts)%nat
      /\ counts !! w = Some cw
      /\ (forall k c, counts !! k = Some c -> c <= cw)
      /\ (forall k c, (k < w)%nat -> counts !! k = Some c -> c < cw).
Proof.
  induction n as [|n IH]; intros i maxIdx cmax Hlen Hmax Hcmax Hle Hlt.
  - exists maxIdx, cmax. simpl. repeat split; auto with lia.
    intros k c Hk. apply (Hle k c); [|assumption].
    apply lookup_lt_Some in Hk. lia.
  - cbn [DetermineWinner_loop].
    destruct (lookup_lt_is_Some_2 counts i ltac:(lia)) as (ci & Hci).
    rewrite Hci, Hcmax. simpl.
    destruct (Z.ltb_spec cmax ci) as [Hnew|Hold].
    + apply (IH (S i) i ci); auto with lia.
      * intros k c Hk Hkc. destruct (decide (k = i)) as [->|Hne].
        -- rewrite Hci in Hkc. injection Hkc as <-. lia.
        -- specialize (Hle k c ltac:(lia) Hkc). lia.
      * intros k c Hk Hkc. specialize (Hle k c Hk Hkc). lia.
    + apply (IH (S i) maxIdx cmax); auto with lia.
      intros k c Hk Hkc. destruct (decide (k = i)) as [->|Hne].
      * rewrite Hci in Hkc. injection Hkc as <-. lia.
      * apply (Hle k c); [lia | assumption].
Qed.

End WinnerFacts.

(** For at least one candidate and a non-zero base the winner is computed
    without panic from the counts [DecodeCounts] returns. *)
Lemma DetermineWinner_from_counts (total base m : Z) :
  1 <= m -> base <> 0 ->
  exists counts w cw,
    DecodeCounts total m base = Ok counts
    /\ Z.of_nat (length counts) = m
    /\ DetermineWinner total base m = Ok (Z.of_nat w + 1)
    /\ (w < length counts)%nat
    /\ counts !! w = Some cw
    /\ (forall k c, counts !! k = Some c -> c <= cw)
    /\ (forall k c, (k < w)%nat -> counts !! k = Some c -> c < cw).
Proof.
  intros Hm Hb. unfold DetermineWinner, DecodeCounts.
  destruct (Z.ltb_spec m 0); [lia|].
  destruct (DecodeCounts_loop_shape base Hb (Z.to_nat m) []
              (replicate (Z.to_nat m) 0) total) as (ds & Hrun & Hlen & _).
  { now rewrite length_replicate. }
  simpl in Hrun. rewrite Hrun.
  rewrite drop_replicate, Nat.sub_diag. simpl. rewrite app_nil_r.
  destruct (lookup_lt_is_Some_2 ds 0 ltac:(lia)) as (c0 & Hc0).
  destruct (DetermineWinner_loop_spec ds (Z.to_nat (m - 1)) 1 0 c0)
    as (w & cw & Hloop & Hw & Hcw & Hle & Hlt); auto with lia.
  - intros k c Hk Hkc. replace k with 0%nat in Hkc by lia.
    rewrite Hc0 in Hkc. injection Hkc as <-. lia.
  - exists ds, w, cw. rewrite Hloop. simpl.
    repeat split; auto with lia.
Qed.

(** X22. For at least one candidate and a non-zero base, [DetermineWinner]
    returns a candidate [w] of [[1, numCandidates]] whose decoded count is
    the largest, and the first such candidate: every candidate before [w]
    has a strictly smaller count. *)
Theorem DetermineWinner_first_max (total base m : Z) :
  1 <= m -> base <> 0 ->
  exists counts w cw,
    DecodeCounts total m base = Ok counts
    /\ DetermineWinner total base m = Ok w
    /\ 1 <= w <= m
    /\ counts !! Z.to_nat (w - 1) = Some cw
    /\ (forall k c, counts !! k = Some c -> c <= cw)
    /\ (forall k c, Z.of_nat k < w - 1 -> counts !! k = Some c -> c < cw).
Proof.
  intros Hm Hb.
  destruct (DetermineWinner_from_counts total base m Hm Hb)
    as (counts & w & cw & Hdec & Hlen & Hwin & Hw & Hcw & Hle & Hlt).
  exists counts, (Z.of_nat w + 1), cw.
  replace (Z.to_nat (Z.of_nat w + 1 - 1)) with w by lia.
  repeat split; auto with lia.
  intros k c Hk. apply Hlt. lia.
Qed.

Lemma DetermineWinner_first_max_witness :
  exists counts w cw,
    DecodeCounts 86 8 6 = Ok counts
    /\ DetermineWinner 86 6 8 = Ok w
    /\ 1 <= w <= 8
    /\ counts !! Z.to_nat (w - 1) = Some cw
    /\ (forall k c, counts !! k = Some c -> c <= cw)
    /\ (forall k c, Z.of_nat k < w - 1 -> counts !! k = Some c -> c < cw).
Proof. apply (DetermineWinner_first_max 86 6 8); lia. Defined.

(** X23. [DetermineWinner] panics exactly when [DecodeCounts] does (a
    negative number of candidates, or a zero base with at least one
    candidate); with no candidate at all it returns candidate 1. *)
Theorem DetermineWinner_panic (total base m : Z) :
  (DetermineWinner total base m = Panic <-> m < 0 \/ (0 < m /\ base = 0))
  /\ DetermineWinner total base 0 = Ok 1.
Proof.
  split; [|reflexivity].
  destruct (Z.lt_trichotomy m 0) as [Hm|[->|Hm]].
  - split; [auto|]. intros _. unfold DetermineWinner, DecodeCounts.
    destruct (Z.ltb_spec m 0); [reflexivity | lia].
  - split; [discriminate | lia].
  - destruct (decide (base = 0)) as [->|Hb].
    + split; [intros _; right; lia|]. intros _.
      unfold DetermineWinner, DecodeCounts.
      destruct (Z.ltb_spec m 0); [lia|].
      destruct (Z.to_nat m) as [|k] eqn:Hk; [lia|]. reflexivity.
    + destruct (DetermineWinner_from_counts total base m ltac:(lia) Hb)
        as (counts & w & cw & _ & _ & Hwin & _).
      rewrite Hwin. split; [discriminate | lia].
Qed.

(** ** From blinded votes to the winner *)

Section Election.

Lemma EncodeVote_nonneg (c base : Z) : 0 < base -> 0 <= EncodeVote c base.
Proof.
  intros Hb. unfold EncodeVote. destruct (Z.leb_spec c 0); [lia|].
  rewrite Exp_nonneg by lia. simpl. apply Z.pow_nonneg. lia.
Qed.

Lemma sumZ_nonneg (f : nat -> Z) (l : list nat) :
  (forall j, 0 <= f j) -> 0 <= sumZ (map f l).
Proof.
  intros Hf. induction l as [|x l IH]; simpl; [lia|].
  specialize (Hf x). lia.
Qed.

Lemma omap_Some_map (f : nat -> Z) (l : list nat) :
  omap id (map (fun j => Some (f j)) l) = map f l.
Proof. induction l as [|x l IH]; simpl; [reflexivity|]. now f_equal. Qed.

Lemma counts_list_lookup (votes : list Z) (m k : nat) :
  (k < m)%nat ->
  counts_list votes m !! k = Some (vote_count votes (Z.of_nat k + 1)).
Proof.
  intros Hk. unfold counts_list.
  rewrite list_lookup_fmap, lookup_seq_lt by assumption. reflexivity.
Qed.

End Election.

(** X24. Tally of a whole election.  Let [n] voters choose among
    [m >= 1] candidates, split their randomness with [SplitSecret] and
    blind their votes with [ComputeBlindVotes] over the shares received;
    let the base be positive and above every candidate's number of votes,
    and the sum of the encoded votes be below [L].  If [ADec] recovers from
    each submitted ciphertext the blinded vote of its voter, then
    [TallyVotes] returns the sum of the encoded votes, [DecodeCounts]
    returns the number of votes of each candidate, and [DetermineWinner]
    returns a candidate with the most votes, the lowest-numbered one on a
    tie. *)
Theorem election_tally (n m : nat) (cand r : nat -> Z) (tp : nat -> tape)
    (split : nat -> list Z) (base : Z) (pp : Params.t) (app : AParams.t)
    (K : list Z) (Tmap : gmap string Z) (votes : list (Z * Z)) :
  (1 <= m)%nat -> 0 < base ->
  (forall j, (j < n)%nat -> 1 <= cand j <= Z.of_nat m) ->
  (forall c, 1 <= c <= Z.of_nat m ->
             vote_count (map cand (seq 0 n)) c < base) ->
  sum_upto n (fun j => EncodeVote (cand j) base) < app.(AParams.L) ->
  (forall i, (i < n)%nat ->
             run (SplitSecret (r i) (Z.of_nat n)) (tp i) = Ok (split i)) ->
  Forall2 (fun vote j =>
             exists b,
               ComputeBlindVotes (cand j) (r j) base
                 (shares_received n split j) pp app = Ok b
               /\ ADec app pp K Tmap vote.1 vote.2 = Ok (Some b))
          votes (seq 0 n) ->
  exists w,
    TallyVotes app pp K Tmap votes
    = Ok (sum_upto n (fun j => EncodeVote (cand j) base))
    /\ DecodeCounts (sum_upto n (fun j => EncodeVote (cand j) base))
                    (Z.of_nat m) base
       = Ok (counts_list (map cand (seq 0 n)) m)
    /\ DetermineWinner (sum_upto n (fun j => EncodeVote (cand j) base))
                       base (Z.of_nat m) = Ok w
    /\ 1 <= w <= Z.of_nat m
    /\ (forall c, 1 <= c <= Z.of_nat m ->
          vote_count (map cand (seq 0 n)) c
          <= vote_count (map cand (seq 0 n)) w)
    /\ (forall c, 1 <= c < w ->
          vote_count (map cand (seq 0 n)) c
          < vote_count (map cand (seq 0 n)) w).
Proof.
  intros Hm Hb Hcand Hcount Hsmall Hsplit Hvotes.
  set (total := sum_upto n (fun j => EncodeVote (cand j) base)) in *.
  assert (Htotal : 0 <= total)
    by (apply sumZ_nonneg; intros; now apply EncodeVote_nonneg).
  assert (HL : app.(AParams.L) <> 0) by lia.
  (* the tally *)
  assert (Htally : TallyVotes app pp K Tmap votes = Ok total).
  { assert (Hrec : Forall2
                     (fun vote o => ADec app pp K Tmap vote.1 vote.2 = Ok o)
                     votes
                     (map (fun j => Some (blinded n cand r split base app j))
                          (seq 0 n))).
    { apply Forall2_fmap_r. eapply Forall2_impl; [exact Hvotes|].
      intros vote j (bj & Hblind & Hdec). simpl.
      rewrite (ComputeBlindVotes_blinded n cand r split base pp app HL) in Hblind.
      injection Hblind as <-. exact Hdec. }
    unfold TallyVotes.
    destruct (big.Div app.(AParams.L) 2) as [half|] eqn:Hhalf;
      [|unfold big.Div in Hhalf; simpl in Hhalf; discriminate].
    simpl. rewrite (TallyVotes_loop_sum _ _ _ _ _ _ _ _ _ Hrec). simpl.
    rewrite Mod_nonzero, Z.add_0_l, sumZ_signed_cong by assumption.
    rewrite omap_Some_map. f_equal.
    rewrite Z.abs_eq by lia.
    pose proof (blinded_sum n cand r tp split base app Hsplit) as Hsum.
    unfold sum_upto in Hsum. rewrite Hsum.
    apply Z.mod_small. unfold total, sum_upto in *. lia. }
  (* the counts *)
  assert (Hdecode : DecodeCounts total (Z.of_nat m) base
                    = Ok (counts_list (map cand (seq 0 n)) m)).
  { unfold total, sum_upto.
    rewrite <- (map_map cand (fun c => EncodeVote c base)).
    apply (DecodeCounts_EncodeVote base Hb); [|assumption].
    apply Forall_forall. intros c Hc.
    apply list_elem_of_In, in_map_iff in Hc as (j & <- & Hj%in_seq).
    apply Hcand. lia. }
  (* the winner *)
  destruct (DetermineWinner_from_counts total base (Z.of_nat m)
              ltac:(lia) ltac:(lia))
    as (counts & w & cw & Hdec' & _ & Hwin & Hw & Hcw & Hle & Hlt).
  rewrite Hdecode in Hdec'. injection Hdec' as <-.
  assert (Hwm : (w < m)%nat).
  { unfold counts_list in Hw. now rewrite length_map, length_seq in Hw. }
  rewrite counts_list_lookup in Hcw by assumption. injection Hcw as <-.
  exists (Z.of_nat w + 1).
  split; [exact Htally|]. split; [exact Hdecode|]. split; [exact Hwin|].
  split; [lia|]. split.
  - intros c Hc. apply (Hle (Z.to_nat (c - 1))).
    rewrite counts_list_lookup by lia. do 2 f_equal. lia.
  - intros c Hc. apply (Hlt (Z.to_nat (c - 1))); [lia|].
    rewrite counts_list_lookup by lia. do 2 f_equal. lia.
Qed.

Lemma election_tally_witness :
  exists w,
    TallyVotes demo_app demo_pp demo_K demo_Tmap demo_election_votes
    = Ok (sum_upto 2 (fun j => EncodeVote 1 3))
    /\ DecodeCounts (sum_upto 2 (fun j => EncodeVote 1 3)) (Z.of_nat 2) 3
       = Ok (counts_list (map (fun _ => 1) (seq 0 2)) 2)
    /\ DetermineWinner (sum_upto 2 (fun j => EncodeVote 1 3)) 3 (Z.of_nat 2)
       = Ok w
    /\ 1 <= w <= Z.of_nat 2
    /\ (forall c, 1 <= c <= Z.of_nat 2 ->
          vote_count (map (fun _ => 1) (seq 0 2)) c
          <= vote_count (map (fun _ => 1) (seq 0 2)) w)
    /\ (forall c, 1 <= c < w ->
          vote_count (map (fun _ => 1) (seq 0 2)) c
          < vote_count (map (fun _ => 1) (seq 0 2)) w).
Proof.
  apply (election_tally 2 2 (fun _ => 1) demo_election_r demo_election_tape
           demo_election_split 3 demo_pp demo_app demo_K demo_Tmap
           demo_election_votes).
  - lia.
  - lia.
  - intros j _. lia.
  - intros c Hc. assert (c = 1 \/ c = 2) as [-> | ->] by lia;
      vm_compute; reflexivity.
  - vm_compute. reflexivity.
  - intros i Hi. destruct i as [|[|i]]; [vm_compute; reflexivity .. | lia].
  - repeat constructor; exists 1; split; vm_compute; reflexivity.
Defined.

(** ** The users of the program *)

Section GenerateUsersFacts.

Variables (pp : Params.t) (L : Z).

Lemma user_id_inj (i j : nat) : user_id i = user_id j -> i = j.
Proof.
  unfold user_id. intros H. injection H as H.
  change (pretty (Z.of_nat i + 1) = pretty (Z.of_nat j + 1)) in H.
  apply (inj pretty) in H. lia.
Qed.

(** One turn of [KGen] followed by [AGen] reads 17 cells of the tape. *)
Lemma KGen_AGen_turn (t : tape) :
  0 < pp.(Params.Q) ->
  exists sk pk K T,
    KGen pp t = Ok (sk, pk, tape_tail t)
    /\ AGen L pp pk (tape_tail t) = Ok (K, T, pk, tape_drop 17 t)
    /\ 1 <= sk /\ (2 <= pp.(Params.Q) -> sk < pp.(Params.Q))
    /\ big.Exp pp.(Params.G) sk pp.(Params.P) = Some pk
    /\ length K = 16%nat
    /\ AGen_table (Z.to_nat L) pp 0 ∅ = Ok T.
Proof.
  intros HQ.
  pose proof (Z.mod_pos_bound (t 0%nat) pp.(Params.Q) HQ) as Hdraw.
  set (sk := if decide (t 0%nat mod pp.(Params.Q) = 0) then 1
             else t 0%nat mod pp.(Params.Q)).
  assert (Hsk : 1 <= sk /\ (2 <= pp.(Params.Q) -> sk < pp.(Params.Q)))
    by (subst sk; destruct (decide _); lia).
  destruct (AGen_table_total pp (Z.to_nat L) 0 ∅ ltac:(lia)) as (T & HT).
  eexists sk, _, _, T. split.
  { unfold KGen. unfold_rand.
    destruct (Z.leb_spec pp.(Params.Q) 0); [lia|]. fold sk.
    rewrite Exp_nonneg by lia. reflexivity. }
  split.
  { unfold AGen. unfold_rand. rewrite rand_Read_bytes, HT. reflexivity. }
  split; [tauto|]. split; [tauto|].
  split; [apply Exp_nonneg; lia|]. split; [reflexivity | exact HT].
Qed.

Lemma GenerateUsers_loop_spec (n : nat) :
  forall (i : nat) (users : gmap string User.t) (t : tape),
    0 < pp.(Params.Q) ->
    exists users',
      GenerateUsers_loop n i pp L users t = Ok (users', tape_drop (17 * n) t)
      /\ (forall k, (i <= k < i + n)%nat ->
            exists sk pk K T,
              users' !! user_id k
              = Some (User.mk (user_id k) (Some sk) (Some pk) K T None [])
              /\ 1 <= sk /\ (2 <= pp.(Params.Q) -> sk < pp.(Params.Q))
              /\ big.Exp pp.(Params.G) sk pp.(Params.P) = Some pk
              /\ length K = 16%nat
              /\ AGen_table (Z.to_nat L) pp 0 ∅ = Ok T)
      /\ (forall id, (forall k, (i <= k < i + n)%nat -> id <> user_id k) ->
            users' !! id = users !! id).
Proof.
  induction n as [|n IH]; intros i users t HQ.
  - exists users. split; [reflexivity|]. split; [intros; lia | reflexivity].
  - destruct (KGen_AGen_turn t HQ)
      as (sk & pk & K & T & HK & HA & Hsk1 & Hsk2 & Hpk & HKlen & HT).
    destruct (IH (S i)
                (<[user_id i :=
                     User.mk (user_id i) (Some sk) (Some pk) K T None []]>
                   users)
                (tape_drop 17 t) HQ)
      as (users' & Hrun & Hnew & Hold).
    exists users'. split.
    { cbn [GenerateUsers_loop]. unfold mbind, rand_bind at 1.
      rewrite HK. unfold mbind, rand_bind at 1. rewrite HA. rewrite Hrun.
      do 2 f_equal. replace (17 * S n)%nat with (17 + 17 * n)%nat by lia.
      now rewrite tape_drop_add. }
    split.
    + intros k Hk. destruct (decide (k = i)) as [->|Hki].
      * rewrite Hold.
        2:{ intros k' Hk' Heq%user_id_inj. lia. }
        rewrite lookup_insert_eq. eauto 12.
      * apply Hnew. lia.
    + intros id Hid. rewrite Hold by (intros; apply Hid; lia).
      apply lookup_insert_ne. intros Heq. apply (Hid i); [lia | auto].
Qed.

End GenerateUsersFacts.

Section DistributeSharesFacts.

Lemma SplitSecret_returns (r n : Z) (t : tape) :
  1 <= n -> 0 <= r ->
  exists parts,
    SplitSecret r n t = Ok (parts, tape_drop (Z.to_nat (n - 1)) t)
    /\ Forall (fun x => 0 <= x) parts.
Proof.
  intros Hn Hr.
  destruct (SplitSecret_loop_shares (Z.to_nat (n - 1)) []
              (replicate (Z.to_nat n) 0) r t Hr)
    as (xs & rem' & Hloop & Hlen & Hsum & Hrem' & Hxs).
  { rewrite length_replicate. lia. }
  simpl in Hloop.
  exists (xs ++ [rem']). split.
  - unfold SplitSecret. destruct (Z.ltb_spec n 0); [lia|].
    unfold mbind, rand_bind. rewrite Hloop.
    destruct (Z.ltb_spec (n - 1) 0); [lia|].
    unfold mret, rand_ret. do 2 f_equal.
    rewrite drop_replicate.
    replace (Z.to_nat n - Z.to_nat (n - 1))%nat with 1%nat by lia. simpl.
    rewrite <- Hlen, <- (Nat.add_0_r (length xs)).
    now rewrite insert_app_r.
  - apply Forall_app. split; [assumption|].
    constructor; [assumption | constructor].
Qed.

Lemma User_set_id (u : User.t) :
  User.set_Shares (User.set_r u u.(User.r)) (u.(User.Shares) ++ []) = u.
Proof. destruct u. unfold User.set_Shares, User.set_r. simpl. now rewrite app_nil_r. Qed.

(** Every receiver of the list gets the share at its position. *)
Lemma DistributeShares_receivers_spec (receivers : list string) :
  forall (i : nat) (shares : list Z) (users : gmap string User.t),
    NoDup receivers ->
    (forall id, id ∈ receivers -> is_Some (users !! id)) ->
    (i + length receivers <= length shares)%nat ->
    exists users',
      DistributeShares_receivers receivers i shares users = Ok users'
      /\ (forall j id u,
            receivers !! j = Some id -> users !! id = Some u ->
            users' !! id
            = Some (User.set_Shares u
                      (u.(User.Shares) ++ [nth (i + j) shares 0])))
      /\ (forall id, id ∉ receivers -> users' !! id = users !! id).
Proof.
  induction receivers as [|rid rest IH]; intros i shares users Hnd Hin Hlen.
  - exists users. split; [reflexivity|]. split; [|reflexivity].
    intros j id u Hj. rewrite lookup_nil in Hj. discriminate.
  - apply NoDup_cons in Hnd as [Hrid Hnd].
    destruct (Hin rid ltac:(left)) as [u0 Hu0].
    destruct (lookup_lt_is_Some_2 shares i ltac:(simpl in Hlen; lia))
      as [s Hs].
    set (users1 := <[rid := User.set_Shares u0 (u0.(User.Shares) ++ [s])]>
                     users).
    destruct (IH (S i) shares users1 Hnd) as (users' & Hrun & Hnew & Hold).
    { intros id Hid. unfold users1.
      destruct (decide (id = rid)) as [->|Hne].
      - rewrite lookup_insert_eq. eauto.
      - rewrite lookup_insert_ne by auto. apply Hin. now right. }
    { simpl in Hlen. lia. }
    exists users'. split.
    { cbn [DistributeShares_receivers]. rewrite Hu0, Hs. exact Hrun. }
    split.
    + intros j id u Hj Hu. destruct j as [|j]; simpl in Hj.
      * injection Hj as ->. rewrite Hold by assumption.
        unfold users1. rewrite lookup_insert_eq.
        rewrite Hu0 in Hu. injection Hu as ->.
        rewrite Nat.add_0_r, nth_lookup, Hs. reflexivity.
      * assert (id <> rid).
        { intros ->. apply Hrid. eapply list_elem_of_lookup_2. exact Hj. }
        replace (i + S j)%nat with (S i + j)%nat by lia.
        apply (Hnew j id u Hj). unfold users1.
        now rewrite lookup_insert_ne by auto.
    + intros id Hid. apply not_elem_of_cons in Hid as [Hne Hid].
      rewrite Hold by assumption. unfold users1.
      now rewrite lookup_insert_ne by auto.
Qed.

Lemma map_nth_seq {A B} (f : A -> B) (l : list A) (d : A) :
  map (fun i => f (nth i l d)) (seq 0 (length l)) = map f l.
Proof.
  induction l as [|x l IH]; simpl; [reflexivity|].
  f_equal. rewrite <- seq_shift, map_map. exact IH.
Qed.

(** The outer loop over the senders that are left.  Every sender draws its
    value and splits it; [runs] lists, sender by sender, the value, the
    random source of the split and the shares. *)
Lemma DistributeShares_senders_spec (userList : list string) (n : nat)
    (low high : Z) :
  NoDup userList -> length userList = n -> 0 <= low < high ->
  forall (senders : list string) (users : gmap string User.t) (t : tape),
    NoDup senders ->
    (forall id, id ∈ senders -> id ∈ userList) ->
    (forall id, id ∈ userList -> is_Some (users !! id)) ->
    exists users' (runs : list (Z * tape * list Z)),
      DistributeShares_senders senders userList (Z.of_nat n) low high users t
      = Ok (users', tape_drop (length senders * n) t)
      /\ length runs = length senders
      /\ (forall i r tp sp,
            runs !! i = Some (r, tp, sp) ->
            low <= r < high
            /\ run (SplitSecret r (Z.of_nat n)) tp = Ok sp
            /\ Forall (fun x => 0 <= x) sp)
      /\ (forall j id u,
            userList !! j = Some id -> users !! id = Some u ->
            exists ro,
              users' !! id
              = Some (User.set_Shares (User.set_r u ro)
                        (u.(User.Shares)
                         ++ map (fun x => nth j x.2 0) runs))
              /\ (forall i, senders !! i = Some id ->
                            ro = (fun x => x.1.1) <$> runs !! i)
              /\ (id ∉ senders -> ro = u.(User.r)))
      /\ (forall id, id ∉ userList -> users' !! id = users !! id).
Proof.
  intros Hnd Hlen Hlh.
  induction senders as [|s rest IH]; intros users t Hnds Hsub Hin.
  - exists users, []. split; [reflexivity|]. split; [reflexivity|].
    split; [intros i r tp sp Hi; rewrite lookup_nil in Hi; discriminate|].
    split; [|reflexivity].
    intros j id u _ Hu. exists u.(User.r). simpl.
    rewrite User_set_id. split; [assumption|].
    split; [|reflexivity]. intros i Hi. rewrite lookup_nil in Hi.
    discriminate.
  - apply NoDup_cons in Hnds as [Hs Hnds].
    assert (Hsl : s ∈ userList) by (apply Hsub; left).
    assert (Hn : (1 <= n)%nat).
    { destruct userList; [inversion Hsl | simpl in Hlen; lia]. }
    destruct (Hin s Hsl) as [us Hus].
    pose proof (Z.mod_pos_bound (t 0%nat) (high - low) ltac:(lia)) as Hdraw.
    set (r := t 0%nat mod (high - low) + low) in *.
    set (users1 := <[s := User.set_r us (Some r)]> users).
    destruct (SplitSecret_returns r (Z.of_nat n) (tape_tail t)
                ltac:(lia) ltac:(lia)) as (sp & Hsplit & Hsp).
    assert (Hrun_split : run (SplitSecret r (Z.of_nat n)) (tape_tail t)
                         = Ok sp)
      by (unfold run; rewrite Hsplit; reflexivity).
    destruct (SplitSecret_Ok _ _ _ _ Hrun_split) as (_ & Hsp_len & _).
    assert (Hin1 : forall id, id ∈ userList -> is_Some (users1 !! id)).
    { intros id Hid. unfold users1.
      destruct (decide (id = s)) as [->|Hne].
      - rewrite lookup_insert_eq. eauto.
      - rewrite lookup_insert_ne by auto. now apply Hin. }
    destruct (DistributeShares_receivers_spec userList 0 sp users1 Hnd Hin1
                ltac:(lia)) as (users2 & Hrecv & Hnew2 & Hold2).
    assert (Hin2 : forall id, id ∈ userList -> is_Some (users2 !! id)).
    { intros id Hid.
      destruct (list_elem_of_lookup_1 _ _ Hid) as [j Hj].
      destruct (Hin1 id Hid) as [u1 Hu1].
      rewrite (Hnew2 j id u1 Hj Hu1). eauto. }
    destruct (IH users2 (tape_drop (Z.to_nat (Z.of_nat n - 1)) (tape_tail t))
                Hnds ltac:(intros; apply Hsub; now right) Hin2)
      as (users' & runs & Hrun & Hruns_len & Hruns & Husers & Hold).
    exists users', ((r, tape_tail t, sp) :: runs). split.
    { cbn [DistributeShares_senders]. unfold_rand.
      destruct (Z.leb_spec (high - low) 0); [lia|]. fold r.
      rewrite Hus. simpl. fold users1. rewrite Hsplit, Hrecv, Hrun.
      do 2 f_equal. simpl.
      rewrite tape_drop_add. f_equal.
      replace n with (S (Z.to_nat (Z.of_nat n - 1))) at 2 by lia.
      reflexivity. }
    split; [simpl; lia|]. split.
    { intros i r' tp' sp' Hi. destruct i as [|i]; simpl in Hi.
      - injection Hi as <- <- <-. repeat split; auto with lia.
      - eapply Hruns. exact Hi. }
    split.
    + intros j id u Hj Hu.
      set (u1 := if decide (id = s) then User.set_r u (Some r) else u).
      assert (Hu1 : users1 !! id = Some u1).
      { unfold users1, u1. destruct (decide (id = s)) as [->|Hne].
        - rewrite lookup_insert_eq. rewrite Hus in Hu. now injection Hu as ->.
        - now rewrite lookup_insert_ne by auto. }
      pose proof (Hnew2 j id u1 Hj Hu1) as Hu2. simpl in Hu2.
      destruct (Husers j id _ Hj Hu2) as (ro & Hu' & Hro1 & Hro2).
      exists ro. split.
      { rewrite Hu'. f_equal. unfold u1.
        destruct (decide (id = s)); destruct u;
          unfold User.set_Shares, User.set_r; simpl;
          now rewrite <- app_assoc. }
      split.
      * intros i Hi. destruct i as [|i]; simpl in Hi.
        -- injection Hi as <-. rewrite Hro2 by assumption.
           unfold u1. destruct (decide (s = s)); [|contradiction].
           reflexivity.
        -- simpl. now apply Hro1.
      * intros Hid. apply not_elem_of_cons in Hid as [Hne Hid].
        rewrite Hro2 by assumption. unfold u1.
        destruct (decide (id = s)); [contradiction|]. reflexivity.
    + intros id Hid. rewrite Hold, Hold2 by assumption. unfold users1.
      apply lookup_insert_ne. intros ->. contradiction.
Qed.

End DistributeSharesFacts.

Section UsersFacts.

Lemma ranges_over_Permutation (userList : list string)
    (users : gmap string User.t) :
  ranges_over userList users -> userList ≡ₚ (map_to_list users).*1.
Proof.
  intros [Hnd Hin]. apply NoDup_Permutation; [assumption | |].
  - apply NoDup_fst_map_to_list.
  - intros id. rewrite Hin, list_elem_of_fmap. split.
    + intros [u Hu]. exists (id, u). split; [reflexivity|].
      now apply elem_of_map_to_list.
    + intros ([id' u] & -> & Hu%elem_of_map_to_list). simpl. eauto.
Qed.

Lemma ranges_over_length (userList : list string)
    (users : gmap string User.t) :
  ranges_over userList users -> length userList = size users.
Proof.
  intros H%ranges_over_Permutation.
  now rewrite H, length_fmap, length_map_to_list.
Qed.

Lemma ranges_over_nil (users : gmap string User.t) :
  ranges_over [] users -> users = ∅.
Proof.
  intros [_ Hin]. apply map_empty. intros id.
  destruct (users !! id) eqn:Hid; [|reflexivity].
  assert (id ∈ @nil string) as Habs by (apply Hin; eauto).
  inversion Habs.
Qed.

(** A sum over the map is the sum over any list that ranges over it. *)
Lemma users_sum_list (f : User.t -> Z) (userList : list string)
    (users : gmap string User.t) :
  ranges_over userList users ->
  users_sum f users
  = sumZ (map (fun id => from_option f 0 (users !! id)) userList).
Proof.
  intros H%ranges_over_Permutation. unfold users_sum.
  rewrite (sumZ_Permutation _ _ (Permutation_map _ H)).
  assert (Hlook : Forall (fun p : string * User.t => users !! p.1 = Some p.2)
                         (map_to_list users))
    by (apply Forall_forall; intros p; apply elem_of_map_to_list').
  clear H. change ((map_to_list users).*1) with (map fst (map_to_list users)).
  induction Hlook as [|p l Hp _ IH]; [reflexivity|].
  cbn [map sumZ foldr]. rewrite Hp. cbn [from_option]. f_equal. exact IH.
Qed.

Lemma sumZ_map_nth (F : string -> Z) (l : list string) :
  sumZ (map F l) = sum_upto (length l) (fun j => F (nth j l EmptyString)).
Proof. unfold sum_upto. now rewrite (map_nth_seq F l EmptyString). Qed.

(** What [DistributeShares] does, user by user: the user at position [j] of
    the list gets the value [r j] and, appended to its shares, share [j] of
    every split, in the order of the senders. *)
Lemma DistributeShares_spec (userList : list string) (low high : Z)
    (users : gmap string User.t) (t : tape) :
  ranges_over userList users -> 0 <= low < high ->
  exists users' (r : nat -> Z) (tp : nat -> tape) (split : nat -> list Z),
    DistributeShares userList low high users t
    = Ok (users', tape_drop (size users * size users) t)
    /\ (forall i, (i < size users)%nat ->
          low <= r i < high
          /\ run (SplitSecret (r i) (Z.of_nat (size users))) (tp i)
             = Ok (split i)
          /\ Forall (fun x => 0 <= x) (split i))
    /\ (forall j id u,
          userList !! j = Some id -> users !! id = Some u ->
          users' !! id
          = Some (User.mk u.(User.userID) u.(User.ask) u.(User.apk)
                    u.(User.K) u.(User.Tmap) (Some (r j))
                    (u.(User.Shares)
                     ++ shares_received (size users) split j)))
    /\ (forall id, users !! id = None -> users' !! id = None)
    /\ ranges_over userList users'.
Proof.
  intros Hover Hlh. pose proof (ranges_over_length _ _ Hover) as Hlen.
  destruct Hover as [Hnd Hin].
  destruct (DistributeShares_senders_spec userList (size users) low high
              Hnd Hlen Hlh userList users t Hnd ltac:(auto)
              ltac:(intros id Hid; now apply Hin))
    as (users' & runs & Hrun & Hruns_len & Hruns & Husers & Hold).
  set (d := (0, t, @nil Z)).
  exists users', (fun i => (nth i runs d).1.1), (fun i => (nth i runs d).1.2),
         (fun i => (nth i runs d).2).
  assert (Hnth : forall i, (i < size users)%nat ->
                           runs !! i = Some (nth i runs d)).
  { intros i Hi. rewrite nth_lookup.
    destruct (lookup_lt_is_Some_2 runs i ltac:(lia)) as [x ->]. reflexivity. }
  split; [unfold DistributeShares; now rewrite Hrun, Hlen|].
  split.
  { intros i Hi. apply (Hruns i). rewrite (Hnth i Hi).
    now destruct (nth i runs d) as [[? ?] ?]. }
  split.
  - intros j id u Hj Hu.
    destruct (Husers j id u Hj Hu) as (ro & -> & Hro & _).
    rewrite (Hro j Hj), Hnth by (apply lookup_lt_Some in Hj; lia).
    unfold User.set_Shares, User.set_r, shares_received. simpl.
    do 3 f_equal. rewrite <- Hlen, <- Hruns_len.
    symmetry. apply (map_nth_seq (fun x => nth j x.2 0)).
  - assert (Hnone : forall id, users !! id = None -> users' !! id = None).
    { intros id Hid. rewrite Hold; [assumption|].
      intros Hmem%Hin. rewrite Hid in Hmem. now destruct Hmem. }
    split; [exact Hnone|]. split; [assumption|].
    intros id. rewrite Hin. split.
    + intros [u Hu]. assert (Hid : id ∈ userList) by (apply Hin; eauto).
      destruct (list_elem_of_lookup_1 _ _ Hid) as [j Hj].
      destruct (Husers j id u Hj Hu) as (ro & -> & _). eauto.
    + intros Hsome. destruct (users !! id) eqn:Hid; [eauto|].
      rewrite (Hnone id Hid) in Hsome. now destruct Hsome.
Qed.

(** A list without repetition whose elements are the keys of the map ranges
    over it. *)
Lemma ranges_over_dom (userList : list string) (users : gmap string User.t) :
  NoDup userList -> dom users = list_to_set userList ->
  ranges_over userList users.
Proof.
  intros Hnd Hdom. split; [assumption|]. intros id.
  now rewrite <- elem_of_dom, Hdom, elem_of_list_to_set.
Qed.

(** The ids [GenerateUsers] makes range over a map that holds them and
    nothing else. *)
Lemma generated_ranges_over (n : nat) (users : gmap string User.t) :
  (forall k, (k < n)%nat -> is_Some (users !! user_id k)) ->
  (forall id, (forall k, (k < n)%nat -> id <> user_id k) ->
              users !! id = None) ->
  ranges_over (map user_id (seq 0 n)) users.
Proof.
  intros Hnew Hold. split.
  - apply (NoDup_fmap_2_strong user_id); [|apply NoDup_seq].
    intros i j _ _. apply user_id_inj.
  - intros id. split.
    + intros (k & <- & Hk%in_seq)%list_elem_of_In%in_map_iff.
      apply Hnew. lia.
    + intros Hsome.
      destruct (decide (id ∈ map user_id (seq 0 n))) as [|Hno];
        [assumption|].
      rewrite Hold in Hsome; [now destruct Hsome|].
      intros k Hk ->. apply Hno. apply list_elem_of_In, in_map_iff.
      exists k. split; [reflexivity|]. apply in_seq. lia.
Qed.

Lemma ranges_over_Permutation_l (l l' : list string)
    (users : gmap string User.t) :
  l ≡ₚ l' -> ranges_over l' users -> ranges_over l users.
Proof.
  intros Hperm [Hnd Hin]. split; [now rewrite Hperm|].
  intros id. now rewrite Hperm.
Qed.

End UsersFacts.

(** X25. [GenerateUsers] panics exactly when at least one user is asked for
    and the group order [q] is not positive: its only failure is the draw
    of [KGen]. *)
Theorem GenerateUsers_panic (pp : Params.t) (L number : Z)
    (users : gmap string User.t) (t : tape) :
  run (GenerateUsers pp L number users) t = Panic
  <-> 1 <= number /\ pp.(Params.Q) <= 0.
Proof.
  unfold run, GenerateUsers.
  destruct (Z.le_gt_cases pp.(Params.Q) 0) as [HQ|HQ].
  - destruct (Z.to_nat number) as [|n] eqn:Hn.
    + split; [discriminate | lia].
    + split; [lia|]. intros _. cbn [GenerateUsers_loop].
      unfold KGen. unfold_rand.
      destruct (Z.leb_spec pp.(Params.Q) 0); [reflexivity | lia].
  - destruct (GenerateUsers_loop_spec pp L (Z.to_nat number) 0 users t
                ltac:(lia)) as (users' & -> & _).
    split; [discriminate | lia].
Qed.

(** X26. For a group order [q >= 2] and a modulus [p <> 0],
    [GenerateUsers] returns after 17 draws per user.  For every [k] of
    [[1, number]] the map then holds under the id [user<k>] a user with
    that id, a secret key of [[1, q-1]], the public key [g^sk mod |p|], a
    key of 16 bytes, the table of [AGen], no random value and no shares;
    every other entry is as before, and from the empty map the result has
    [number] users. *)
Theorem GenerateUsers_users (pp : Params.t) (L number : Z)
    (users : gmap string User.t) (t : tape) :
  2 <= pp.(Params.Q) -> pp.(Params.P) <> 0 ->
  exists users',
    GenerateUsers pp L number users t
    = Ok (users', tape_drop (17 * Z.to_nat number) t)
    /\ (forall k, 1 <= k <= number ->
          exists sk K T,
            users' !! ("user" +:+ pretty k)
            = Some (User.mk ("user" +:+ pretty k) (Some sk)
                      (Some (pp.(Params.G) ^ sk mod Z.abs pp.(Params.P)))
                      K T None [])
            /\ 1 <= sk < pp.(Params.Q)
            /\ length K = 16%nat
            /\ AGen_table (Z.to_nat L) pp 0 ∅ = Ok T)
    /\ (forall id, (forall k, 1 <= k <= number -> id <> "user" +:+ pretty k) ->
          users' !! id = users !! id)
    /\ (users = ∅ -> size users' = Z.to_nat number).
Proof.
  intros HQ HP.
  destruct (GenerateUsers_loop_spec pp L (Z.to_nat number) 0 users t
              ltac:(lia)) as (users' & Hrun & Hnew & Hold).
  assert (Hid : forall k, 1 <= k ->
                  "user" +:+ pretty k = user_id (Z.to_nat (k - 1))).
  { intros k Hk. unfold user_id. do 2 f_equal. lia. }
  exists users'. split; [exact Hrun|]. split; [|split].
  - intros k Hk. rewrite Hid by lia.
    destruct (Hnew (Z.to_nat (k - 1)) ltac:(lia))
      as (sk & pk & K & T & Hu & Hsk1 & Hsk2 & Hpk & HK & HT).
    rewrite Exp_nonneg in Hpk by lia.
    destruct (decide (pp.(Params.P) = 0)); [contradiction|].
    injection Hpk as <-. exists sk, K, T. auto with lia.
  - intros id Hne. apply Hold. intros k Hk.
    replace (user_id k) with ("user" +:+ pretty (Z.of_nat k + 1))
      by reflexivity.
    apply Hne. lia.
  - intros ->.
    assert (Hover : ranges_over (map user_id (seq 0 (Z.to_nat number)))
                                users').
    { apply generated_ranges_over.
      - intros k Hk.
        destruct (Hnew k ltac:(lia)) as (? & ? & ? & ? & -> & _). eauto.
      - intros id Hne. rewrite Hold; [reflexivity|].
        intros k Hk. apply Hne. lia. }
    apply ranges_over_length in Hover.
    now rewrite length_map, length_seq in Hover.
Qed.

Lemma GenerateUsers_users_witness :
  exists users',
    GenerateUsers demo_pp 4 2 ∅ (fun i => Z.of_nat (i + 1))
    = Ok (users', tape_drop (17 * Z.to_nat 2) (fun i => Z.of_nat (i + 1)))
    /\ (forall k, 1 <= k <= 2 ->
          exists sk K T,
            users' !! ("user" +:+ pretty k)
            = Some (User.mk ("user" +:+ pretty k) (Some sk)
                      (Some (5 ^ sk mod Z.abs 23)) K T None [])
            /\ 1 <= sk < 22
            /\ length K = 16%nat
            /\ AGen_table (Z.to_nat 4) demo_pp 0 ∅ = Ok T)
    /\ (forall id, (forall k, 1 <= k <= 2 -> id <> "user" +:+ pretty k) ->
          users' !! id = (∅ : gmap string User.t) !! id)
    /\ ((∅ : gmap string User.t) = ∅ -> size users' = Z.to_nat 2).
Proof.
  apply (GenerateUsers_users demo_pp 4 2 ∅ (fun i => Z.of_nat (i + 1)));
    simpl; lia.
Defined.

(** X27. Let [userList] range over the users and [0 <= low < high].  Then
    [DistributeShares] returns after one draw per pair of users; it adds and
    removes no user and leaves every id and key as it was; every user gets
    a value of [[low, high)] and, appended to the shares it had, one share
    per user, each of [[0, high)]. *)
Theorem DistributeShares_shares (userList : list string) (low high : Z)
    (users : gmap string User.t) (t : tape) :
  ranges_over userList users -> 0 <= low < high ->
  exists users',
    DistributeShares userList low high users t
    = Ok (users', tape_drop (size users * size users) t)
    /\ (forall id, is_Some (users' !! id) <-> is_Some (users !! id))
    /\ (forall id u',
          users' !! id = Some u' ->
          exists u r shares,
            users !! id = Some u
            /\ u' = User.mk u.(User.userID) u.(User.ask) u.(User.apk)
                      u.(User.K) u.(User.Tmap) (Some r)
                      (u.(User.Shares) ++ shares)
            /\ low <= r < high
            /\ length shares = size users
            /\ Forall (fun x => 0 <= x < high) shares).
Proof.
  intros Hover Hlh.
  destruct (DistributeShares_spec userList low high users t Hover Hlh)
    as (users' & r & tp & split & Hrun & Hsplit & Husers & Hnone & Hover').
  exists users'. split; [exact Hrun|]. split.
  { intros id. destruct Hover as [_ Hin], Hover' as [_ Hin'].
    now rewrite <- Hin, <- Hin'. }
  intros id u' Hu'.
  destruct (users !! id) as [u|] eqn:Hu;
    [|rewrite (Hnone id Hu) in Hu'; discriminate].
  assert (Hid : id ∈ userList) by (apply Hover; eauto).
  destruct (list_elem_of_lookup_1 _ _ Hid) as [j Hj].
  pose proof (lookup_lt_Some _ _ _ Hj) as Hjn.
  rewrite (ranges_over_length _ _ Hover) in Hjn.
  rewrite (Husers j id u Hj Hu) in Hu'. injection Hu' as <-.
  exists u, (r j), (shares_received (size users) split j).
  split; [reflexivity|]. split; [reflexivity|].
  split; [apply Hsplit; lia|]. split.
  - unfold shares_received. now rewrite length_map, length_seq.
  - unfold shares_received. apply Forall_forall. intros x Hx.
    apply list_elem_of_In, in_map_iff in Hx as (i & <- & Hi%in_seq).
    destruct (Hsplit i ltac:(lia)) as (Hr & Hrun_i & Hpos).
    destruct (SplitSecret_Ok _ _ _ _ Hrun_i) as (_ & Hlen & Hsum).
    pose proof (sumZ_bounds _ Hpos) as Hb. rewrite Forall_forall in Hb.
    assert (Hmem : nth j (split i) 0 ∈ split i).
    { apply list_elem_of_In, nth_In. lia. }
    specialize (Hb _ Hmem). lia.
Qed.

Lemma demo_users_range : ranges_over ["user2"; "user1"] demo_users.
Proof.
  apply ranges_over_dom.
  - apply (bool_decide_unpack _). vm_compute. exact I.
  - apply (bool_decide_unpack _). vm_compute. exact I.
Qed.

Lemma DistributeShares_shares_witness :
  exists users',
    DistributeShares ["user2"; "user1"] 5000 10000 demo_users
      (fun i => Z.of_nat (777 * i + 1234))
    = Ok (users', tape_drop (size demo_users * size demo_users)
                    (fun i => Z.of_nat (777 * i + 1234)))
    /\ (forall id, is_Some (users' !! id) <-> is_Some (demo_users !! id))
    /\ (forall id u',
          users' !! id = Some u' ->
          exists u r shares,
            demo_users !! id = Some u
            /\ u' = User.mk u.(User.userID) u.(User.ask) u.(User.apk)
                      u.(User.K) u.(User.Tmap) (Some r)
                      (u.(User.Shares) ++ shares)
            /\ 5000 <= r < 10000
            /\ length shares = size demo_users
            /\ Forall (fun x => 0 <= x < 10000) shares).
Proof.
  apply (DistributeShares_shares ["user2"; "user1"] 5000 10000 demo_users
           (fun i => Z.of_nat (777 * i + 1234))).
  - exact demo_users_range.
  - lia.
Defined.

(** X28. Let [userList] range over the users and [0 <= low < high].  After
    [DistributeShares] the shares held by all users add up to what they
    added up to before plus the sum of the users' random values: every
    share handed out was received once, whatever the order of the list. *)
Theorem DistributeShares_shares_sum (userList : list string) (low high : Z)
    (users : gmap string User.t) (t : tape) :
  ranges_over userList users -> 0 <= low < high ->
  exists users',
    run (DistributeShares userList low high users) t = Ok users'
    /\ users_sum (fun u => sumZ u.(User.Shares)) users'
       = users_sum (fun u => sumZ u.(User.Shares)) users
         + users_sum (fun u => default 0 u.(User.r)) users'.
Proof.
  intros Hover Hlh.
  destruct (DistributeShares_spec userList low high users t Hover Hlh)
    as (users' & r & tp & split & Hrun & Hsplit & Husers & _ & Hover').
  exists users'. split; [unfold run; now rewrite Hrun|].
  pose proof (ranges_over_length _ _ Hover) as Hlen.
  rewrite !(users_sum_list _ userList) by assumption.
  rewrite !sumZ_map_nth, Hlen.
  pose proof (shares_received_total (size users) r tp split
                ltac:(intros i Hi; apply Hsplit; exact Hi)) as Htotal.
  unfold sum_upto in *.
  assert (Hat : forall j, In j (seq 0 (size users)) ->
                  exists u,
                    users !! nth j userList EmptyString = Some u
                    /\ users' !! nth j userList EmptyString
                       = Some (User.mk u.(User.userID) u.(User.ask)
                                 u.(User.apk) u.(User.K) u.(User.Tmap)
                                 (Some (r j))
                                 (u.(User.Shares)
                                  ++ shares_received (size users) split j))).
  { intros j Hj%in_seq.
    destruct (lookup_lt_is_Some_2 userList j ltac:(lia)) as [id Hid].
    rewrite nth_lookup, Hid. simpl.
    destruct (proj1 (proj2 Hover id)) as [u Hu];
      [eapply list_elem_of_lookup_2; exact Hid|].
    exists u. split; [exact Hu|]. now apply (Husers j). }
  rewrite (sumZ_ext
             (fun j => from_option (fun u => default 0 u.(User.r)) 0
                         (users' !! nth j userList EmptyString))
             r (seq 0 (size users))).
  2:{ intros j Hj. destruct (Hat j Hj) as (u & _ & ->). reflexivity. }
  rewrite <- Htotal, <- sumZ_pointwise_add. apply sumZ_ext.
  intros j Hj. destruct (Hat j Hj) as (u & -> & ->). simpl.
  rewrite sumZ_app. lia.
Qed.

Lemma DistributeShares_shares_sum_witness :
  exists users',
    run (DistributeShares ["user2"; "user1"] 5000 10000 demo_users)
        (fun i => Z.of_nat (777 * i + 1234))
    = Ok users'
    /\ users_sum (fun u => sumZ u.(User.Shares)) users'
       = users_sum (fun u => sumZ u.(User.Shares)) demo_users
         + users_sum (fun u => default 0 u.(User.r)) users'.
Proof.
  apply (DistributeShares_shares_sum ["user2"; "user1"] 5000 10000
           demo_users (fun i => Z.of_nat (777 * i + 1234))).
  - exact demo_users_range.
  - lia.
Defined.

(** X29. Let [userList] range over the users and [low] be non-negative.
    [DistributeShares] panics exactly when there is a user and the range
    [[low, high)] is empty: without users no value is drawn at all. *)
Theorem DistributeShares_panic (userList : list string) (low high : Z)
    (users : gmap string User.t) (t : tape) :
  ranges_over userList users -> 0 <= low ->
  run (DistributeShares userList low high users) t = Panic
  <-> users <> ∅ /\ high <= low.
Proof.
  intros Hover Hlow. destruct (Z.lt_ge_cases low high) as [Hlh|Hlh].
  - destruct (DistributeShares_spec userList low high users t Hover
                ltac:(lia)) as (users' & _ & _ & _ & Hrun & _).
    unfold run. rewrite Hrun. split; [discriminate | lia].
  - destruct userList as [|s rest].
    + apply ranges_over_nil in Hover as ->.
      split; [discriminate|]. intros [Hne _]. now contradiction Hne.
    + split.
      * intros _. split; [|lia]. intros ->.
        destruct (proj1 (proj2 Hover s) ltac:(left)) as [u Hu].
        rewrite lookup_empty in Hu. discriminate.
      * intros _. unfold run, DistributeShares.
        cbn [DistributeShares_senders]. unfold_rand.
        destruct (Z.leb_spec (high - low) 0); [reflexivity | lia].
Qed.

Lemma DistributeShares_panic_witness :
  run (DistributeShares ["user2"; "user1"] 7 7 demo_users) (fun _ => 0)
  = Panic
  <-> demo_users <> ∅ /\ 7 <= 7.
Proof.
  apply (DistributeShares_panic ["user2"; "user1"] 7 7 demo_users
           (fun _ => 0)).
  - exact demo_users_range.
  - lia.
Defined.

(** X30. The program's set-up makes the blinding cancel.  Let [q] be
    positive, [0 <= low < high] and [L <> 0], and let [userList] hold the
    ids [user1 .. user<number>] in any order.  Then [GenerateUsers] on the
    empty map followed by [DistributeShares] returns; for every user and
    every choice of candidates, [ComputeBlindVotes] on the user's value and
    shares returns; and the blinded votes of all users add up, modulo [L],
    to the sum of their encoded votes. *)
Theorem users_blinded_votes_cancel (pp : Params.t) (app : AParams.t)
    (L number low high base : Z) (userList : list string)
    (cand : string -> Z) (t : tape) :
  0 < pp.(Params.Q) -> 0 <= low < high -> app.(AParams.L) <> 0 ->
  userList ≡ₚ map user_id (seq 0 (Z.to_nat number)) ->
  exists users',
    run (users ← GenerateUsers pp L number ∅;
         DistributeShares userList low high users) t
    = Ok users'
    /\ (forall id, id ∈ userList ->
          exists u r,
            users' !! id = Some u /\ u.(User.r) = Some r
            /\ ComputeBlindVotes (cand id) r base u.(User.Shares) pp app
               = Ok (user_blinded users' cand base pp app id))
    /\ sumZ (map (user_blinded users' cand base pp app) userList)
         mod app.(AParams.L)
       = sumZ (map (fun id => EncodeVote (cand id) base) userList)
         mod app.(AParams.L).
Proof.
  intros HQ Hlh HL Hperm.
  destruct (GenerateUsers_loop_spec pp L (Z.to_nat number) 0 ∅ t HQ)
    as (users1 & Hrun1 & Hnew & Hold).
  assert (Hover : ranges_over userList users1).
  { apply (ranges_over_Permutation_l _ _ _ Hperm), generated_ranges_over.
    - intros k Hk. destruct (Hnew k ltac:(lia)) as (? & ? & ? & ? & -> & _).
      eauto.
    - intros id Hne. rewrite Hold; [reflexivity|].
      intros k Hk. apply Hne. lia. }
  assert (Hfresh : forall id u, users1 !! id = Some u ->
                     u.(User.Shares) = []).
  { intros id u Hu.
    assert (Hid : id ∈ map user_id (seq 0 (Z.to_nat number))).
    { rewrite <- Hperm. apply Hover. eauto. }
    apply list_elem_of_In, in_map_iff in Hid as (k & <- & Hk%in_seq).
    destruct (Hnew k ltac:(lia)) as (? & ? & ? & ? & Hu' & _).
    rewrite Hu' in Hu. now injection Hu as <-. }
  destruct (DistributeShares_spec userList low high users1
              (tape_drop (17 * Z.to_nat number) t) Hover Hlh)
    as (users' & r & tp & split & Hrun & Hsplit & Husers & _ & Hover').
  pose proof (ranges_over_length _ _ Hover) as Hlen.
  set (n := size users1) in *.
  set (candj := fun j => cand (nth j userList EmptyString)).
  assert (Hat : forall j id,
            userList !! j = Some id ->
            exists u,
              users' !! id = Some u
              /\ u.(User.r) = Some (r j)
              /\ u.(User.Shares) = shares_received n split j
              /\ user_blinded users' cand base pp app id
                 = blinded n candj r split base app j).
  { intros j id Hj.
    destruct (proj1 (proj2 Hover id)) as [u Hu];
      [eapply list_elem_of_lookup_2; exact Hj|].
    pose proof (Husers j id u Hj Hu) as Hu'.
    rewrite (Hfresh id u Hu) in Hu'. simpl in Hu'.
    eexists. split; [exact Hu'|]. split; [reflexivity|].
    split; [reflexivity|].
    unfold user_blinded. rewrite Hu'. simpl.
    pose proof (ComputeBlindVotes_blinded n candj r split base pp app HL j)
      as Hb.
    unfold candj at 1 in Hb. rewrite nth_lookup, Hj in Hb. simpl in Hb.
    now rewrite Hb. }
  exists users'. split.
  { unfold run, mbind, rand_bind, GenerateUsers.
    rewrite Hrun1, Hrun. reflexivity. }
  split.
  - intros id Hid. destruct (list_elem_of_lookup_1 _ _ Hid) as [j Hj].
    destruct (Hat j id Hj) as (u & Hu & Hr & Hs & Hb).
    exists u, (r j). split; [exact Hu|]. split; [exact Hr|].
    rewrite Hs, Hb.
    pose proof (ComputeBlindVotes_blinded n candj r split base pp app HL j)
      as Hcb.
    unfold candj at 1 in Hcb. rewrite nth_lookup, Hj in Hcb. exact Hcb.
  - rewrite !sumZ_map_nth, Hlen.
    pose proof (blinded_sum n candj r tp split base app
                  ltac:(intros i Hi; apply Hsplit; exact Hi)) as Hsum.
    unfold candj in *. rewrite <- Hsum.
    f_equal. unfold sum_upto. apply sumZ_ext. intros j Hj%in_seq.
    destruct (lookup_lt_is_Some_2 userList j ltac:(lia)) as [id Hid].
    rewrite nth_lookup, Hid. simpl.
    now destruct (Hat j id Hid) as (_ & _ & _ & _ & ->).
Qed.

Lemma users_blinded_votes_cancel_witness :
  exists users',
    run (users ← GenerateUsers demo_pp 4 2 ∅;
         DistributeShares ["user2"; "user1"] 5000 10000 users)
        (fun i => Z.of_nat (777 * i + 1234))
    = Ok users'
    /\ (forall id, id ∈ ["user2"; "user1"] ->
          exists u r,
            users' !! id = Some u /\ u.(User.r) = Some r
            /\ ComputeBlindVotes (demo_choice id) r 3 u.(User.Shares)
                 demo_pp demo_app
               = Ok (user_blinded users' demo_choice 3 demo_pp demo_app id))
    /\ sumZ (map (user_blinded users' demo_choice 3 demo_pp demo_app)
               ["user2"; "user1"])
         mod demo_app.(AParams.L)
       = sumZ (map (fun id => EncodeVote (demo_choice id) 3)
                 ["user2"; "user1"])
         mod demo_app.(AParams.L).
Proof.
  apply (users_blinded_votes_cancel demo_pp demo_app 4 2 5000 10000 3
           ["user2"; "user1"] demo_choice
           (fun i => Z.of_nat (777 * i + 1234))).
  - simpl. lia.
  - lia.
  - simpl. lia.
  - apply perm_swap.
Defined.
